(** * Jira component automation: the two CI scripts of the repository

    [.github/scripts/add_jira_component.py]  (module [AddJiraComponent])
    [.github/scripts/jira_component_hook.py] (module [JiraComponentHook])

    Both scripts are straight-line Python that talks to the tracker.  They
    are embedded as functions in a small state monad whose state carries the
    tracker, the record of the calls made to it and what the script wrote;
    a computation ends by returning, by raising a Python [Exception], or by
    [sys.exit] (a [SystemExit], which [except Exception] does not catch).

    The tracker is a parameter of both embeddings: a client (the [jira]
    package) for the first script, an HTTP transport ([requests]) for the
    second, each free to answer or to raise as it likes.  A reference
    tracker instantiates both where a property is about what the tracker
    holds afterwards.  So are the surroundings of a run: for the first
    script the encoding of the standard output and the opening of the
    output file, for the second GitHub, the event file and the environment.
    In the first script a [print] is embedded where its text can hold a
    character beyond ASCII, which the standard output may fail to encode;
    the message of line 151 goes to the standard error stream, which
    replaces what it cannot encode. *)

From Stdlib Require Import ZArith NArith Ascii String DecimalString.
From stdpp Require Import base option list sorting gmap.

Local Open Scope N_scope.

(** ** Python strings *)

Module Py.

(** A [str] is a sequence of code points. *)
Definition str : Type := list N.

(** An ASCII literal of the source. *)
Definition lit (s : string) : str := N_of_ascii <$> list_ascii_of_string s.
Arguments lit : simpl never.

(** The part of the Unicode character database the scripts depend on beyond
    ASCII: the upper-case mapping of [str.upper], the decimal digits [\d]
    matches, the alphanumerics that make up [\w] and the printable
    characters, which [repr] leaves as they are.  On ASCII the definitions
    below are explicit. *)
Class UnicodeData := {
  uni_upper : N → list N;
  uni_decimal : N → bool;
  uni_alnum : N → bool;
  uni_printable : N → bool
}.

(** The tables of an interpreter that knows ASCII only. *)
Definition ascii_only : UnicodeData :=
  {| uni_upper c := [c]; uni_decimal _ := false; uni_alnum _ := false;
     uni_printable _ := false |}.

Definition between (lo hi c : N) : bool := (lo <=? c) && (c <=? hi).

Definition is_ascii (c : N) : bool := c <? 128.
Definition is_AZ (c : N) : bool := between 65 90 c.
Definition is_az (c : N) : bool := between 97 122 c.
Definition is_09 (c : N) : bool := between 48 57 c.

(** [str.isspace] of one code point. *)
Definition isspace (c : N) : bool :=
  between 9 13 c || between 28 32 c || (c =? 133) || (c =? 160)
  || (c =? 5760) || between 8192 8202 c || (c =? 8232) || (c =? 8233)
  || (c =? 8239) || (c =? 8287) || (c =? 12288).

Definition ascii_upper (c : N) : N := if is_az c then c - 32 else c.

Section unicode.
Context {U : UnicodeData}.

Definition upper_char (c : N) : list N :=
  if is_ascii c then [ascii_upper c] else uni_upper c.

(** [s.upper()] *)
Definition upper (s : str) : str := s ≫= upper_char.

(** What [\d] and [\w] match in a [str] pattern. *)
Definition re_d (c : N) : bool :=
  if is_ascii c then is_09 c else uni_decimal c.
Definition re_w (c : N) : bool :=
  if is_ascii c then is_AZ c || is_az c || is_09 c || (c =? 95)
  else uni_alnum c.

(** The characters of [s] that [repr(s)] shows as they are; the others it
    writes as escapes, in ASCII. *)
Definition isprintable (c : N) : bool :=
  if is_ascii c then between 32 126 c else uni_printable c.
Definition repr_keeps (s : str) : str := List.filter isprintable s.
End unicode.

Fixpoint lstrip (s : str) : str :=
  match s with
  | c :: s' => if isspace c then lstrip s' else s
  | [] => []
  end.
Definition rstrip (s : str) : str := reverse (lstrip (reverse s)).

(** [s.strip()] *)
Definition strip (s : str) : str := rstrip (lstrip s).

(** [s.split(sep)] for a one-character separator. *)
Fixpoint split (sep : N) (s : str) : list str :=
  match s with
  | [] => [[]]
  | c :: s' =>
      if c =? sep then [] :: split sep s'
      else match split sep s' with
           | p :: ps => (c :: p) :: ps
           | [] => [[c]]
           end
  end.

(** Truth value of a string: the empty string is falsy. *)
Definition truthy (s : str) : bool :=
  match s with [] => false | _ => true end.

(** Comparison of strings, code point by code point. *)
Fixpoint str_leb (s t : str) : bool :=
  match s, t with
  | [], _ => true
  | _ :: _, [] => false
  | c :: s', d :: t' => (c <? d) || ((c =? d) && str_leb s' t')
  end.
Definition str_le (s t : str) : Prop := str_leb s t = true.
Definition str_lt (s t : str) : Prop := str_le s t ∧ s ≠ t.

#[global] Instance str_le_dec s t : Decision (str_le s t).
Proof. unfold str_le. apply _. Defined.

(** [sorted(keys)] for a set of strings. *)
Definition sorted (keys : gset str) : list str :=
  merge_sort str_le (elements keys).

(** Instances of Python's [Exception] the scripts can meet ([SystemExit]
    is no [Exception]; it is the [Exited] outcome of a computation). *)
Inductive exception :=
| HTTPError (status_code : Z)
| JIRAError (status_code : Z)
| RequestException
| NameError (name : string)
| TypeError
| KeyError
| ValueError
| UnicodeEncodeError
| OSError.

End Py.
Import Py.

(** ** The tracker *)

Module Tracker.

Record component := Component { id : str; name : str }.

(** An issue as the tracker returns it: the key of its project and the
    components attached to it. *)
Record issue := Issue { project_key : str; components : list component }.

(** The body of an issue edit, in its two forms:
    [{"update": {"components": [{"add": {"id": i}}, ...]}}] and
    [{"fields": {"components": [{"name": n}, ...]}}]. *)
Inductive operation :=
| Add (id : str)
| Remove (id : str)
| Set_to (ids : list str).
Inductive edit :=
| Update_components (ops : list operation)
| Fields_components (names : list str).

(** A reference tracker, left alone by other actors: projects with their
    components, issues, and the number the next component id is made of.
    It answers as the interface of the tracker is documented: a component
    is unique in its project by name (a second create is a 409 conflict),
    an [Add] attaches one more component, [Fields_components] replaces the
    attached components by the named ones. *)
Record jira := Jira {
  projects : gmap str (list component);
  issues : gmap str issue;
  next_id : N
}.

Definition names (cs : list component) : list str := name <$> cs.
Definition ids (cs : list component) : list str := id <$> cs.

Definition by_name (n : str) (cs : list component) : option component :=
  find (λ c, bool_decide (name c = n)) cs.
Definition by_id (i : str) (cs : list component) : option component :=
  find (λ c, bool_decide (id c = i)) cs.

Definition fresh_id (n : N) : str := lit (NilEmpty.string_of_uint (N.to_uint n)).

(** A failed request carries its HTTP status. *)
Definition get_issue (key : str) (j : jira) : Z + issue :=
  match issues j !! key with
  | Some i => inr i
  | None => inl 404%Z
  end.

Definition get_components (project : str) (j : jira) : Z + list component :=
  match projects j !! project with
  | Some cs => inr cs
  | None => inl 404%Z
  end.

Definition create_component (n project : str) (j : jira) : jira * (Z + component) :=
  match projects j !! project with
  | None => (j, inl 404%Z)
  | Some cs =>
      if bool_decide (n ∈ names cs) then (j, inl 409%Z)
      else
        let c := Component (fresh_id (next_id j)) n in
        (Jira (<[project := cs ++ [c]]> (projects j)) (issues j) (next_id j + 1),
         inr c)
  end.

Definition apply_operation (available attached : list component)
    (op : operation) : option (list component) :=
  match op with
  | Add i =>
      c ← by_id i available;
      Some (if bool_decide (i ∈ ids attached) then attached else attached ++ [c])
  | Remove i => Some (filter (λ c, id c ≠ i) attached)
  | Set_to wanted => mapM (λ i, by_id i available) wanted
  end.

Definition apply_edit (available attached : list component) (e : edit)
    : option (list component) :=
  match e with
  | Update_components ops =>
      foldl (λ acc op, cs ← acc; apply_operation available cs op) (Some attached) ops
  | Fields_components ns => mapM (λ n, by_name n available) ns
  end.

Definition edit_issue (key : str) (e : edit) (j : jira) : jira * (Z + ()) :=
  match issues j !! key with
  | None => (j, inl 404%Z)
  | Some i =>
      match apply_edit (default [] (projects j !! project_key i)) (components i) e with
      | None => (j, inl 400%Z)
      | Some cs =>
          (Jira (projects j) (<[key := Issue (project_key i) cs]> (issues j)) (next_id j),
           inr ())
      end
  end.

End Tracker.

(** ** jira_component_hook.py: the issue-key harvester (lines 21, 76-84) *)

Module Harvester.

(** The fragment of regular expressions [ISSUE_KEY_RE] is written in.  The
    one capturing group spans every consuming item, so what [findall]
    returns for a match is the matched text. *)
Inductive regex :=
| Class (p : N → bool)
| Plus (p : N → bool)
| Boundary
| Seq (r1 r2 : regex).

Section matcher.
Context {U : UnicodeData}.

Definition word_before (prev : option N) : bool := from_option re_w false prev.
Definition word_at (s : str) : bool := from_option re_w false (head s).

(** Greedy repetition with backtracking: the longest run is tried first
    and given up one character at a time while the rest fails. *)
Fixpoint greedy {A} (p : N → bool) (prev : option N) (s : str)
    (k : option N → str → option A) : option A :=
  match s with
  | c :: s' =>
      if p c then
        match greedy p (Some c) s' k with
        | Some r => Some r
        | None => k prev s
        end
      else k prev s
  | [] => k prev s
  end.

(** [run r prev s k]: match [r] at the head of [s], [prev] being the
    character before it, then continue with [k] on what is left. *)
Fixpoint run {A} (r : regex) (prev : option N) (s : str)
    (k : option N → str → option A) : option A :=
  match r with
  | Class p =>
      match s with
      | c :: s' => if p c then k (Some c) s' else None
      | [] => None
      end
  | Plus p =>
      match s with
      | c :: s' => if p c then greedy p (Some c) s' k else None
      | [] => None
      end
  | Boundary => if xorb (word_before prev) (word_at s) then k prev s else None
  | Seq r1 r2 => run r1 prev s (λ prev' s', run r2 prev' s' k)
  end.

(** The text left after a match at the head of [s]. *)
Definition match_here (r : regex) (prev : option N) (s : str) : option str :=
  run r prev s (λ _ rest, Some rest).

(** [r.findall(s)]: leftmost matches, none overlapping.  The scan resumes
    where a match ended; every pattern of this fragment consumes a
    character, the guard on the lengths keeps the function total. *)
Fixpoint findall_from (fuel : nat) (r : regex) (prev : option N) (s : str)
    : list str :=
  match fuel, s with
  | S fuel', c :: s' =>
      match match_here r prev s with
      | Some rest =>
          if (length rest <? length s)%nat then
            let m := take (length s - length rest) s in
            m :: findall_from fuel' r (last m) rest
          else findall_from fuel' r (Some c) s'
      | None => findall_from fuel' r (Some c) s'
      end
  | _, _ => []
  end.
Definition findall (r : regex) (s : str) : list str :=
  findall_from (length s) r None s.

(** [ISSUE_KEY_RE = re.compile(r"\b([A-Z][A-Z0-9]+-\d+)\b")] *)
Definition ISSUE_KEY_RE : regex :=
  Seq Boundary
    (Seq (Class is_AZ)
       (Seq (Plus (λ c, is_AZ c || is_09 c))
          (Seq (Class (N.eqb 45))
             (Seq (Plus re_d) Boundary)))).

(** The same pattern without the two [\b]. *)
Definition ISSUE_KEY_SHAPE : regex :=
  Seq (Class is_AZ)
    (Seq (Plus (λ c, is_AZ c || is_09 c))
       (Seq (Class (N.eqb 45)) (Plus re_d))).

(** [extract_issue_keys], from the collected texts on:
<<
    keys = set()
    for t in texts:
        if not t: continue
        for m in ISSUE_KEY_RE.findall(t): keys.add(m)
    return sorted(keys)
>> *)
Definition harvest (r : regex) (texts : list str) : gset str :=
  foldl (λ keys t,
           if truthy t then foldl (λ keys m, keys ∪ {[ m ]}) keys (findall r t)
           else keys)
        ∅ texts.
Definition extract_issue_keys (texts : list str) : list str :=
  sorted (harvest ISSUE_KEY_RE texts).
End matcher.

End Harvester.
Import Harvester.

(** ** Computations that return, raise or exit *)

Module Run.

Inductive outcome (A : Type) :=
| Returned (a : A)
| Raised (e : exception)
| Exited (code : Z).
Arguments Returned {A} a.
Arguments Raised {A} e.
Arguments Exited {A} code.

Definition M (W A : Type) : Type := W → W * outcome A.

Definition ret {W A} (a : A) : M W A := λ w, (w, Returned a).
Definition bind {W A B} (c : M W A) (k : A → M W B) : M W B :=
  λ w, match c w with
       | (w', Returned a) => k a w'
       | (w', Raised e) => (w', Raised e)
       | (w', Exited n) => (w', Exited n)
       end.

(** [raise e] and [sys.exit(code)]. *)
Definition raise {W A} (e : exception) : M W A := λ w, (w, Raised e).
Definition sys_exit {W A} (code : Z) : M W A := λ w, (w, Exited code).

(** [try: c  except Exception as e: h e]; a [SystemExit] passes through. *)
Definition try_except {W A} (c : M W A) (h : exception → M W A) : M W A :=
  λ w, match c w with
       | (w', Raised e) => h e w'
       | r => r
       end.

(** [for x in xs: body x] *)
Fixpoint for_each {W A} (xs : list A) (body : A → M W ()) : M W () :=
  match xs with
  | [] => ret ()
  | x :: xs' => bind (body x) (λ _, for_each xs' body)
  end.

(** The exit status of the interpreter once the script's [main] is over. *)
Definition exit_status {A} (o : outcome A) : Z :=
  match o with
  | Returned _ => 0
  | Raised _ => 1
  | Exited code => code
  end.

End Run.
Import Run.

Declare Scope run_scope.
Notation "x ← c ; k" := (Run.bind c (λ x, k))
  (at level 20, c at level 100, k at level 200, only parsing) : run_scope.
Notation "c ;; k" := (Run.bind c (λ _, k))
  (at level 100, k at level 200, right associativity, only parsing) : run_scope.
Delimit Scope run_scope with run.

Local Open Scope run_scope.

(** ** add_jira_component.py ([main], lines 12-152) *)

Module AddJiraComponent.
Import Tracker.

(** The calls the script makes on the [jira] package. *)
Inductive call :=
| JIRA (server : str) (basic_auth : str * str)
| issue_ (key : str)
| project_components_ (project : str)
| create_component_ (name project description : str)
| update_ (key : str) (components : list str).

(** One entry of the record of calls: the call, and whether it raised. *)
Record event := Event { what : call; raised : bool }.

(** The client: each call may change the tracker, and returns or raises. *)
Class Client (S : Type) := {
  connect : str → str * str → S → S * (exception + ());
  fetch_issue : str → S → S * (exception + issue);
  project_components : str → S → S * (exception + list component);
  new_component : str → str → str → S → S * (exception + component);
  update_issue : str → list str → S → S * (exception + ())
}.

(** The client of the reference tracker: a failed request raises
    [JIRAError] with its status. *)
Definition jira_error {A} (r : Z + A) : exception + A :=
  match r with inl status => inl (JIRAError status) | inr a => inr a end.

#[global] Instance reference : Client jira := {|
  connect _ _ j := (j, inr ());
  fetch_issue key j := (j, jira_error (get_issue key j));
  project_components project j := (j, jira_error (get_components project j));
  new_component n project _ j :=
    let '(j', r) := Tracker.create_component n project j in (j', jira_error r);
  update_issue key ns j :=
    let '(j', r) := edit_issue key (Fields_components ns) j in (j', jira_error r)
|}.

(** [f"Component for {component_name} repository"] *)
Definition description_of (component_name : str) : str :=
  lit "Component for " ++ component_name ++ lit " repository".
Arguments description_of : simpl never.

(** The surroundings of a run. *)
Class Host := {
  (** the code points beyond ASCII that the encoding of [sys.stdout] has *)
  stdout_encodes : N → bool;
  (** [open(path, 'a')]: the exception it raises, when it raises *)
  open_raises : str → option exception
}.

(** The signs of the messages: [⊘], [✓] and [✗]. *)
Definition circled_slash : str := [8856].
Definition check_mark : str := [10003].
Definition ballot_x : str := [10007].

Section script.
Context {U : UnicodeData} {S : Type} {C : Client S} {H : Host}.

(** What a run acts on: the tracker, the record of calls, and the lines
    appended to the output file, which is the file [GITHUB_OUTPUT] names
    and [/dev/null] when it is unset. *)
Record world := World {
  tracker : S;
  calls : list event;
  github_output : list str
}.

Definition invoke {A} (c : call) (op : S → S * (exception + A)) : M world A :=
  λ w, match op (tracker w) with
       | (s, inl e) =>
           (World s (calls w ++ [Event c true]) (github_output w), Raised e)
       | (s, inr a) =>
           (World s (calls w ++ [Event c false]) (github_output w), Returned a)
       end.

(** Whether stdout can encode these strings. *)
Definition encodable (c : N) : bool := is_ascii c || stdout_encodes c.
Definition speakable (parts : list str) : bool := forallb (forallb encodable) parts.

(** [print(text)], for a text made of ASCII characters and of [parts]. *)
Definition print (parts : list str) : M world () :=
  λ w, if speakable parts then (w, Returned ()) else (w, Raised UnicodeEncodeError).

(** [f.write(line + '\n')] on the output file opened for appending. *)
Definition write (line : str) : M world () :=
  λ w, (World (tracker w) (calls w) (github_output w ++ [line]), Returned ()).

(** [os.environ.get('GITHUB_OUTPUT', '/dev/null')] *)
Definition output_path (environ : gmap string str) : str :=
  default (lit "/dev/null") (environ !! "GITHUB_OUTPUT"%string).

(** [with open(path, 'a') as f: ...] *)
Definition open_append (path : str) (body : M world ()) : M world () :=
  λ w, match open_raises path with
       | Some e => (w, Raised e)
       | None => body w
       end.

(** Lines 38-42, 52-56 and 88-92. *)
Definition skip (path : str) (reason : string) : M world () :=
  open_append path
    (write (lit "status=skipped");;
     write (lit "skip_reason=" ++ lit reason));;
  sys_exit 0.

(** [[p.strip().upper() for p in jira_project_filter.split(',') if p.strip()]] *)
Definition parse_project_filter (jira_project_filter : str) : list str :=
  (λ p, upper (strip p)) <$> filter (λ p, strip p ≠ []) (split 44 jira_project_filter).

(** The body of the [try] block (lines 67-148). *)
Definition ensure (path jira_base_url jira_user_email jira_api_token
    issue_key component_name : str) (allowed_projects : list str) : M world () :=
  print [jira_base_url];;
  invoke (JIRA jira_base_url (jira_user_email, jira_api_token))
         (connect jira_base_url (jira_user_email, jira_api_token));;
  print [issue_key];;
  issue ← invoke (issue_ issue_key) (fetch_issue issue_key);
  let project_key := Tracker.project_key issue in
  print [project_key];;
  if bool_decide (upper project_key ∉ allowed_projects) then
    print [circled_slash; issue_key; project_key];;
    print allowed_projects;;
    skip path "project_not_allowed"
  else
    print [check_mark; project_key];;
    print [component_name; project_key];;
    project_components0 ← invoke (project_components_ project_key)
                                 (project_components project_key);
    let component_names := names project_components0 in
    (if bool_decide (component_name ∉ component_names) then
       print [component_name];;
       let description := description_of component_name in
       new_component ← invoke (create_component_ component_name project_key description)
                              (new_component component_name project_key description);
       print [component_name; id new_component]
     else print [component_name]);;
    let existing_components := names (components issue) in
    print (repr_keeps <$> existing_components);;
    (if bool_decide (component_name ∈ existing_components) then
       print [component_name; issue_key]
     else
       (match by_name component_name project_components0 with
        | None =>
            project_components1 ← invoke (project_components_ project_key)
                                         (project_components project_key);
            ret (by_name component_name project_components1)
        | Some comp => ret (Some comp)
        end);;
       let all_components := existing_components ++ [component_name] in
       print [component_name; issue_key];;
       invoke (update_ issue_key all_components)
              (update_issue issue_key all_components);;
       print [component_name; issue_key]);;
    print [check_mark];;
    open_append path (write (lit "status=processed")).

(** [{'✓' if v else '✗'}] *)
Definition mark (v : option str) : str :=
  if from_option truthy false v then check_mark else ballot_x.

(** Lines 23-29. *)
Definition missing (environ : gmap string str) : M world () :=
  print [mark (environ !! "JIRA_BASE_URL"%string)];;
  print [mark (environ !! "JIRA_USER_EMAIL"%string)];;
  print [mark (environ !! "JIRA_API_TOKEN"%string)];;
  print [mark (environ !! "ISSUE_KEY"%string)];;
  print [mark (environ !! "COMPONENT_NAME"%string)];;
  sys_exit 1.

(** Lines 59-64. *)
Definition announce (allowed_projects : list str) : M world () :=
  match allowed_projects with
  | [p] => print [p];; print [p]
  | _ => print allowed_projects;; print (repr_keeps <$> allowed_projects)
  end.

(** An exception that leaves [main] ends the process with status 1, and
    so does the handler of line 150, whose message goes to the standard
    error stream. *)
Definition main (environ : gmap string str) : M world () :=
  let jira_project_filter := environ !! "JIRA_PROJECT"%string in
  let path := output_path environ in
  match environ !! "JIRA_BASE_URL"%string, environ !! "JIRA_USER_EMAIL"%string,
        environ !! "JIRA_API_TOKEN"%string, environ !! "ISSUE_KEY"%string,
        environ !! "COMPONENT_NAME"%string with
  | Some jira_base_url, Some jira_user_email, Some jira_api_token,
    Some issue_key, Some component_name =>
      if negb (forallb truthy [jira_base_url; jira_user_email; jira_api_token;
                               issue_key; component_name])
      then missing environ
      else
        match jira_project_filter with
        | None => print [circled_slash];; skip path "missing_project_filter"
        | Some jira_project_filter =>
            if negb (truthy jira_project_filter)
               || bool_decide (strip jira_project_filter = [])
            then print [circled_slash];; skip path "missing_project_filter"
            else
              let allowed_projects := parse_project_filter jira_project_filter in
              if bool_decide (allowed_projects = []) then
                print [circled_slash];;
                print [jira_project_filter];;
                skip path "invalid_project_filter"
              else
                announce allowed_projects;;
                try_except
                  (ensure path jira_base_url jira_user_email jira_api_token
                     issue_key component_name allowed_projects)
                  (λ e, sys_exit 1)
        end
  | _, _, _, _, _ => missing environ
  end.

(** A run of the script from a tracker, with nothing called or written
    yet; its result is the world it leaves and the exit status. *)
Definition start (s : S) : world := World s [] [].
Definition script (environ : gmap string str) (s : S) : world * Z :=
  let '(w, o) := main environ (start s) in (w, exit_status o).
End script.

Arguments world : clear implicits.
Arguments speakable : simpl never.
Arguments output_path : simpl never.

End AddJiraComponent.

(** ** jira_component_hook.py: the batch ensurer (lines 94-163) *)

Module JiraComponentHook.
Import Tracker.

(** The requests the script sends, by method and path under
    [{JIRA_BASE_URL}/rest/api/3]. *)
Inductive request :=
| GET_issue_project (issue_key : str)
| GET_project_components (project_key : str)
| POST_component (name project : str) (leadAccountId : option str)
| PUT_issue (issue_key : str) (body : edit).

(** What [r.json()] and the indexing of it give: the project of an issue,
    a list of components, one component, or an exception. *)
Inductive payload :=
| Project (key id : str)
| Components (cs : list component)
| A_component (c : component)
| Unusable (e : exception).

Record response := Response { status_code : Z; json : payload }.

Class Transport (S : Type) :=
  send : request → S → S * (exception + response).

(** The reference tracker behind HTTP; it names a project by its key. *)
Definition answer {A} (ok : Z) (body : A → payload) (r : Z + A) : response :=
  match r with
  | inl status => Response status (Unusable ValueError)
  | inr a => Response ok (body a)
  end.

#[global] Instance reference : Transport jira := λ q j,
  match q with
  | GET_issue_project key =>
      (j, inr (answer 200 (λ i, Project (project_key i) (project_key i))
                 (get_issue key j)))
  | GET_project_components project =>
      (j, inr (answer 200 Components (get_components project j)))
  | POST_component n project _ =>
      let '(j', r) := Tracker.create_component n project j in
      (j', inr (answer 201 A_component r))
  | PUT_issue key body =>
      let '(j', r) := edit_issue key body j in
      (j', inr (answer 204 (λ _, Unusable ValueError) r))
  end.

Inductive line :=
| Nothing_to_do
| OK (key repo_name : str)
| WARN_response (key : str) (e : exception)
| WARN (key : str) (e : exception).

(** [JIRA_COMPONENT_LEAD] is read on line 116; the module binds no such
    name (lines 10-18 bind its globals). *)
Definition JIRA_COMPONENT_LEAD : option str := None.

Section script.
Context {U : UnicodeData} {S : Type} {T : Transport S}.
Variable REPO_NAME : str.

Record world := World {
  tracker : S;
  sent : list request;
  stdout : list line
}.

(** [requests.get], [requests.post], [requests.put] *)
Definition requests (q : request) : M world response :=
  λ w, match send q (tracker w) with
       | (s, inl e) => (World s (sent w ++ [q]) (stdout w), Raised e)
       | (s, inr r) => (World s (sent w ++ [q]) (stdout w), Returned r)
       end.

Definition print (l : line) : M world () :=
  λ w, (World (tracker w) (sent w) (stdout w ++ [l]), Returned ()).

(** Reading a global of the module: unbound names raise [NameError]. *)
Definition global {A} (name : string) (binding : option A) : M world A :=
  match binding with
  | Some v => ret v
  | None => raise (NameError name)
  end.

Definition raise_for_status (r : response) : M world () :=
  if ((400 <=? status_code r) && (status_code r <? 600))%Z
  then raise (HTTPError (status_code r))
  else ret ().

Definition jira_get_issue_project (issue_key : str) : M world (str * str) :=
  r ← requests (GET_issue_project issue_key);
  raise_for_status r;;
  match json r with
  | Project key id => ret (key, id)
  | Unusable e => raise e
  | _ => raise KeyError
  end.

Definition jira_list_components (project_key : str) : M world (gmap str component) :=
  r ← requests (GET_project_components project_key);
  raise_for_status r;;
  match json r with
  | Components cs => ret (foldl (λ out comp, <[name comp := comp]> out) ∅ cs)
  | Unusable e => raise e
  | _ => raise TypeError
  end.

Definition jira_create_component (project_key name : str)
    : M world (option component) :=
  lead ← global "JIRA_COMPONENT_LEAD" JIRA_COMPONENT_LEAD;
  r ← requests (POST_component name project_key
                  (if truthy lead then Some lead else None));
  if (status_code r =? 409)%Z then
    comps ← jira_list_components project_key;
    ret (comps !! name)
  else
    raise_for_status r;;
    match json r with
    | A_component c => ret (Some c)
    | Unusable e => raise e
    | _ => raise KeyError
    end.

Definition jira_add_component_to_issue (issue_key component_id : str) : M world () :=
  r ← requests (PUT_issue issue_key (Update_components [Add component_id]));
  if bool_decide (status_code r ∉ [200; 204]%Z) then raise_for_status r
  else ret ().

(** The body of the [try] block of the loop. *)
Definition ensure (key : str) : M world () :=
  project ← jira_get_issue_project key;
  comps ← jira_list_components project.1;
  comp ← match comps !! REPO_NAME with
         | Some comp => ret (Some comp)
         | None => jira_create_component project.1 REPO_NAME
         end;
  component_id ← match comp with
                 | Some comp => ret (id comp)
                 | None => raise TypeError
                 end;
  jira_add_component_to_issue key component_id;;
  print (OK key REPO_NAME).

Definition warn (key : str) (e : exception) : M world () :=
  match e with
  | HTTPError _ => print (WARN_response key e)
  | _ => print (WARN key e)
  end.

(** The loop of [main] over the issue keys. *)
Definition process (issue_keys : list str) : M world () :=
  for_each issue_keys (λ key, try_except (ensure key) (warn key)).

Definition main (texts : list str) : M world () :=
  let issue_keys := extract_issue_keys texts in
  match issue_keys with
  | [] => print Nothing_to_do
  | _ => process issue_keys
  end.

Definition start (s : S) : world := World s [] [].
End script.

Arguments world : clear implicits.

End JiraComponentHook.

(** * Properties *)

Import Harvester.

(** ** Character classes *)

Ltac classes :=
  unfold re_d, re_w, is_ascii, is_AZ, is_az, is_09, between in *;
  repeat match goal with
         | |- context [?a <? ?b] => destruct (N.ltb_spec a b)
         | |- context [?a <=? ?b] => destruct (N.leb_spec a b)
         | |- context [?a =? ?b] => destruct (N.eqb_spec a b)
         | H : context [?a <? ?b] |- _ => destruct (N.ltb_spec a b)
         | H : context [?a <=? ?b] |- _ => destruct (N.leb_spec a b)
         | H : context [?a =? ?b] |- _ => destruct (N.eqb_spec a b)
         end;
  simpl in *; try done; try lia.

Section classes.
Context {U : UnicodeData}.
Hypothesis decimal_alnum : ∀ c, uni_decimal c = true → uni_alnum c = true.

Definition is_key_char (c : N) : bool := is_AZ c || is_09 c.

Lemma AZ_word c : is_AZ c = true → re_w c = true.
Proof. classes. Qed.

Lemma key_char_word c : is_key_char c = true → re_w c = true.
Proof. unfold is_key_char. classes. Qed.

Lemma digit_word c : re_d c = true → re_w c = true.
Proof. pose proof (decimal_alnum c). classes; auto. Qed.

Lemma AZ_not_digit c : is_AZ c = true → re_d c = false.
Proof. classes. Qed.

Lemma key_char_not_hyphen c : is_key_char c = true → (45 =? c) = false.
Proof. unfold is_key_char. classes. Qed.

End classes.

(** ** The matcher on [ISSUE_KEY_RE] *)

(** The character before the end of [run], [prev] when [run] is empty. *)
Definition last_or (prev : option N) (run : str) : option N :=
  match last run with
  | Some c => Some c
  | None => prev
  end.

Lemma last_or_cons prev c run : last_or prev (c :: run) = last_or (Some c) run.
Proof.
  unfold last_or. destruct run as [|d run]; simpl; [done|].
  destruct (last (d :: run)) eqn:E; [done|]. by apply last_None in E.
Qed.

Lemma last_or_app prev l run :
  l ≠ [] → last_or prev (l ++ run) = last_or (last l) run.
Proof.
  intros Hl. unfold last_or. rewrite last_app.
  destruct (last run) eqn:Hr; [done|].
  destruct (last l) eqn:El; [done|].
  apply last_None in El. done.
Qed.

Section greedy.
Context {U : UnicodeData} {A : Type}.
Implicit Types (p : N → bool) (k : option N → str → option A).

Lemma greedy_sound p prev s k x :
  greedy p prev s k = Some x →
  ∃ run rest, s = run ++ rest ∧ Forall (λ c, p c = true) run
              ∧ k (last_or prev run) rest = Some x.
Proof.
  revert prev. induction s as [|c s IH]; intros prev; simpl.
  - intros Hk. by exists [], [].
  - destruct (p c) eqn:Hc; [|intros Hk; by exists [], (c :: s)].
    destruct (greedy p (Some c) s k) as [y|] eqn:Hg.
    + intros [= ->]. destruct (IH _ Hg) as (run & rest & -> & Hrun & Hk).
      exists (c :: run), rest. rewrite last_or_cons. auto.
    + intros Hk. by exists [], (c :: s).
Qed.

(** When the rest cannot follow a character of the class with another
    one, the longest run is the only one that matches. *)
Lemma greedy_complete p d run rest k x :
  (∀ d' c s', p d' = true → p c = true → k (Some d') (c :: s') = None) →
  p d = true →
  Forall (λ c, p c = true) run →
  k (last_or (Some d) run) rest = Some x →
  greedy p (Some d) (run ++ rest) k = Some x.
Proof.
  intros Hstop Hd Hrun. revert d Hd.
  induction Hrun as [|c run Hc Hrun IH]; intros d Hd Hk; simpl.
  - unfold last_or in Hk. simpl in Hk.
    destruct rest as [|c rest]; simpl; [done|].
    destruct (p c) eqn:Hc; [|done].
    rewrite (Hstop d c rest Hd Hc) in Hk. done.
  - rewrite Hc. rewrite last_or_cons in Hk. by rewrite (IH c Hc Hk).
Qed.
End greedy.

Section issue_key.
Context {U : UnicodeData}.
Hypothesis decimal_alnum : ∀ c, uni_decimal c = true → uni_alnum c = true.

(** The texts [[A-Z][A-Z0-9]+-\d+] describes. *)
Definition key_shape (k : str) : Prop :=
  ∃ c body digits,
    k = c :: body ++ 45 :: digits
    ∧ is_AZ c = true
    ∧ body ≠ [] ∧ Forall (λ c, is_key_char c = true) body
    ∧ digits ≠ [] ∧ Forall (λ c, re_d c = true) digits.

Lemma key_shape_cons k : key_shape k → ∃ c k', k = c :: k' ∧ is_AZ c = true.
Proof. intros (c & body & digits & -> & Hc & _). eauto. Qed.

Lemma word_before_last_or p d run :
  (∀ c, p c = true → re_w c = true) →
  p d = true → Forall (λ c, p c = true) run →
  word_before (last_or (Some d) run) = true.
Proof.
  intros Hp Hd Hrun. unfold last_or.
  destruct (last run) as [e|] eqn:He; simpl; [|by apply Hp].
  apply Hp. apply last_Some_elem_of in He.
  by apply (proj1 (Forall_forall _ _) Hrun).
Qed.

Lemma match_here_sound prev s rest :
  match_here ISSUE_KEY_RE prev s = Some rest →
  word_before prev = false ∧ word_at rest = false
  ∧ ∃ k, s = k ++ rest ∧ key_shape k.
Proof.
  unfold match_here, ISSUE_KEY_RE. cbn [run].
  destruct (xorb (word_before prev) (word_at s)) eqn:Hb; [|done].
  destruct s as [|c s]; [done|].
  destruct (is_AZ c) eqn:Hc; [|done].
  destruct s as [|c1 s]; [done|].
  destruct (is_AZ c1 || is_09 c1) eqn:Hc1; [|done].
  intros Hg. apply greedy_sound in Hg as (body & s2 & -> & Hbody & Hk).
  destruct s2 as [|h s2]; [done|].
  destruct (45 =? h) eqn:Hh; [|done]. apply N.eqb_eq in Hh as <-.
  destruct s2 as [|d s2]; [done|].
  destruct (re_d d) eqn:Hd; [|done].
  apply greedy_sound in Hk as (digits & rest' & -> & Hdigits & Hk).
  destruct (xorb _ (word_at rest')) eqn:Hb'; [|done].
  injection Hk as ->.
  rewrite (word_before_last_or re_d) in Hb' by auto using digit_word.
  cbn in Hb. rewrite (AZ_word c Hc) in Hb.
  split; [by destruct (word_before prev)|].
  split; [by destruct (word_at rest)|].
  exists (c :: (c1 :: body) ++ 45 :: d :: digits). split.
  - simpl. by rewrite <- !app_assoc.
  - exists c, (c1 :: body), (d :: digits). repeat split; auto.
Qed.

Lemma match_here_complete prev k rest :
  word_before prev = false → word_at rest = false → key_shape k →
  match_here ISSUE_KEY_RE prev (k ++ rest) = Some rest.
Proof.
  intros Hprev Hrest (c & body & digits & -> & Hc & Hbody & Hkey & Hdigits & Hdig).
  destruct body as [|c1 body]; [done|]. destruct digits as [|d digits]; [done|].
  apply Forall_cons in Hkey as [Hc1 Hkey]. apply Forall_cons in Hdig as [Hd Hdig].
  unfold match_here, ISSUE_KEY_RE. cbn [run app].
  replace (word_at (c :: c1 :: (body ++ 45 :: d :: digits) ++ rest)) with (re_w c)
    by done.
  rewrite Hprev, (AZ_word c Hc), Hc. cbn [xorb].
  fold (is_key_char c1). rewrite Hc1.
  rewrite <- app_assoc.
  apply greedy_complete; [|done|done|].
  { intros d' e s' _ He. by rewrite (key_char_not_hyphen e He). }
  cbn [app]. rewrite N.eqb_refl, Hd.
  apply greedy_complete; [|done|done|].
  { intros d' e s' Hd' He.
    replace (word_at (e :: s')) with (re_w e) by done. cbn [word_before from_option].
    by rewrite (digit_word decimal_alnum d' Hd'), (digit_word decimal_alnum e He). }
  rewrite (word_before_last_or re_d), Hrest by auto using digit_word. done.
Qed.

Lemma match_here_spec prev s rest :
  match_here ISSUE_KEY_RE prev s = Some rest ↔
  word_before prev = false ∧ word_at rest = false
  ∧ ∃ k, s = k ++ rest ∧ key_shape k.
Proof.
  split; [apply match_here_sound|].
  intros (Hprev & Hrest & k & -> & Hk). by apply match_here_complete.
Qed.
End issue_key.

(** ** The scan for issue keys *)

Section scan.
Context {U : UnicodeData}.
Hypothesis decimal_alnum : ∀ c, uni_decimal c = true → uni_alnum c = true.

(** [k] stands in [s] between two word boundaries, [prev] being the
    character before [s]. *)
Definition delimited (prev : option N) (s k : str) : Prop :=
  ∃ pre post, s = pre ++ k ++ post
              ∧ word_before (last_or prev pre) = false
              ∧ word_at post = false.

(** In a key, a character after one that is no word character is a digit. *)
Lemma after_hyphen k x b c y :
  key_shape k → k = x ++ b :: c :: y → re_w b = false → re_d c = true.
Proof.
  intros (c0 & body & digits & -> & Hc0 & _ & Hbody & _ & Hdigits) Heq Hb.
  assert (Hword : Forall (λ c, re_w c = true) (c0 :: body)).
  { constructor; [by apply AZ_word|].
    eapply Forall_impl; [done|]. apply key_char_word. }
  change (c0 :: body ++ 45 :: digits) with ((c0 :: body) ++ 45 :: digits) in Heq.
  apply app_eq_inv in Heq as [(m & Hm1 & Hm2)|(m & Hm1 & Hm2)].
  - destruct m as [|e m]; simplify_eq/=.
    + by apply Forall_cons in Hdigits as [??].
    + rewrite Hm1 in Hword.
      apply Forall_app in Hword as [_ [Hw _]%Forall_cons]. congruence.
  - destruct m as [|e m]; simplify_eq/=.
    + by apply Forall_cons in Hdigits as [??].
    + apply Forall_app in Hdigits as [_ [Hd _]%Forall_cons].
      apply (digit_word decimal_alnum) in Hd. congruence.
Qed.

(** A key that begins inside a match would begin on a digit: matches
    and delimited keys do not overlap. *)
Lemma no_overlap prev k0 rest pre k post :
  key_shape k0 → key_shape k →
  k0 ++ rest = pre ++ k ++ post → pre ≠ [] →
  word_before (last_or prev pre) = false →
  ∃ pre', pre = k0 ++ pre' ∧ rest = pre' ++ k ++ post.
Proof.
  intros Hk0 Hk Heq Hpre Hb.
  apply app_eq_inv in Heq as [(m & Hm1 & Hm2)|(m & Hm1 & Hm2)]; [|by eauto].
  destruct m as [|x m].
  { exists []. rewrite !app_nil_r in *. simpl in Hm2. by subst. }
  exfalso.
  destruct (key_shape_cons k Hk) as (c & k' & -> & Hc).
  injection Hm2 as <- Hm2.
  destruct (last pre) as [b|] eqn:Hlast; [|by apply last_None in Hlast].
  unfold last_or in Hb. rewrite Hlast in Hb. simpl in Hb.
  apply last_Some in Hlast as [pre0 ->].
  rewrite <- app_assoc in Hm1. simpl in Hm1.
  pose proof (after_hyphen _ _ _ _ _ Hk0 Hm1 Hb) as Hd.
  rewrite (AZ_not_digit c Hc) in Hd. done.
Qed.

Lemma key_shape_nonempty k : key_shape k → k ≠ [].
Proof. intros (c & k' & -> & _)%key_shape_cons. done. Qed.

Lemma findall_from_spec fuel prev s k :
  (length s ≤ fuel)%nat →
  k ∈ findall_from fuel ISSUE_KEY_RE prev s ↔ key_shape k ∧ delimited prev s k.
Proof.
  revert prev s. induction fuel as [|fuel IH]; intros prev s Hlen.
  { destruct s; [|simpl in Hlen; lia]. simpl. split; [by intros ?%elem_of_nil|].
    intros (Hk & pre & post & Heq & _). apply key_shape_nonempty in Hk.
    symmetry in Heq. apply app_eq_nil in Heq as [_ [??]%app_eq_nil]. done. }
  destruct s as [|c s].
  { simpl. split; [by intros ?%elem_of_nil|].
    intros (Hk & pre & post & Heq & _). apply key_shape_nonempty in Hk.
    symmetry in Heq. apply app_eq_nil in Heq as [_ [??]%app_eq_nil]. done. }
  cbn [findall_from].
  destruct (match_here ISSUE_KEY_RE prev (c :: s)) as [rest|] eqn:Hm.
  - pose proof Hm as (Hprev & Hrest & k0 & Hs & Hk0)%(match_here_sound decimal_alnum).
    pose proof (key_shape_nonempty _ Hk0) as Hne.
    assert (length (c :: s) = length k0 + length rest)%nat as Hl
      by (by rewrite Hs, length_app).
    assert (length k0 ≠ 0)%nat by (by destruct k0).
    destruct (Nat.ltb_spec (length rest) (length (c :: s))); [|lia].
    replace (take (length (c :: s) - length rest) (c :: s)) with k0; last first.
    { rewrite Hl. replace (length k0 + length rest - length rest)%nat
        with (length k0) by lia. by rewrite Hs, take_app_length. }
    rewrite elem_of_cons, IH by (simpl in *; lia). rewrite Hs. split.
    + intros [->|(Hk & pre & post & -> & Hb & Hpost)].
      * split; [done|]. exists [], rest. done.
      * split; [done|]. exists (k0 ++ pre), post.
        rewrite <- app_assoc, last_or_app by done. done.
    + intros (Hk & pre & post & Heq & Hb & Hpost).
      destruct pre as [|b pre].
      * left. simpl in Heq. rewrite <- Hs in Heq.
        pose proof (match_here_complete decimal_alnum prev k post Hprev Hpost Hk) as Hm'.
        rewrite <- Heq, Hm in Hm'. injection Hm' as ->.
        rewrite Hs in Heq. by apply app_inv_tail in Heq.
      * right. split; [done|].
        destruct (no_overlap prev k0 rest (b :: pre) k post) as (pre' & Hp & Hr); try done.
        exists pre', post. split; [done|]. split; [|done].
        rewrite Hp, last_or_app in Hb by done. done.
  - rewrite IH by (simpl in *; lia). split.
    + intros (Hk & pre & post & -> & Hb & Hpost). split; [done|].
      exists (c :: pre), post. by rewrite last_or_cons.
    + intros (Hk & pre & post & Heq & Hb & Hpost). split; [done|].
      destruct pre as [|b pre].
      * simpl in Heq.
        pose proof (match_here_complete decimal_alnum prev k post Hb Hpost Hk) as Hm'.
        rewrite <- Heq, Hm in Hm'. done.
      * injection Heq as <- ->. exists pre, post. by rewrite last_or_cons in Hb.
Qed.

Lemma findall_spec s k :
  k ∈ findall ISSUE_KEY_RE s ↔ key_shape k ∧ delimited None s k.
Proof. by apply findall_from_spec. Qed.
End scan.

(** ** The order of [sorted] *)

Lemma str_leb_total s t : str_leb s t = true ∨ str_leb t s = true.
Proof.
  revert t. induction s as [|c s IH]; intros [|d t]; simpl; auto.
  destruct (IH t) as [->| ->]; classes; auto.
Qed.

Lemma str_leb_trans s t u :
  str_leb s t = true → str_leb t u = true → str_leb s u = true.
Proof.
  revert t u. induction s as [|c s IH]; intros [|d t] [|e u]; simpl; try done.
  intros H1 H2. specialize (IH t u).
  destruct (str_leb s t), (str_leb t u); classes; auto.
Qed.

Lemma str_leb_antisym s t : str_leb s t = true → str_leb t s = true → s = t.
Proof.
  revert t. induction s as [|c s IH]; intros [|d t]; simpl; try done.
  intros H1 H2. specialize (IH t).
  destruct (str_leb s t), (str_leb t s); classes; f_equal; auto.
Qed.

#[global] Instance str_le_total : Total str_le.
Proof. intros s t. apply str_leb_total. Qed.
#[global] Instance str_le_trans : Transitive str_le.
Proof. intros s t u. apply str_leb_trans. Qed.
#[global] Instance str_le_antisym : AntiSymm (=) str_le.
Proof. intros s t. apply str_leb_antisym. Qed.

Lemma elem_of_sorted (keys : gset str) k : k ∈ sorted keys ↔ k ∈ keys.
Proof. unfold sorted. by rewrite merge_sort_Permutation, elem_of_elements. Qed.

Lemma StronglySorted_NoDup_lt (l : list str) :
  StronglySorted str_le l → NoDup l → StronglySorted str_lt l.
Proof.
  induction 1 as [|k l Hl IH Hk]; intros Hnd; constructor.
  - apply IH. by apply NoDup_cons in Hnd as [_ ?].
  - apply NoDup_cons in Hnd as [Hin _].
    apply Forall_forall. intros x Hx. split.
    + by apply (proj1 (Forall_forall _ _) Hk).
    + by intros ->.
Qed.

Lemma sorted_strictly (keys : gset str) : StronglySorted str_lt (sorted keys).
Proof.
  apply StronglySorted_NoDup_lt.
  - apply StronglySorted_merge_sort; apply _.
  - unfold sorted. rewrite merge_sort_Permutation. apply NoDup_elements.
Qed.

(** ** The harvester *)

Section harvest.
Context {U : UnicodeData}.

Lemma elem_of_add_all (keys : gset str) (ms : list str) (k : str) :
  k ∈ foldl (λ keys m, keys ∪ {[ m ]}) keys ms ↔ k ∈ keys ∨ k ∈ ms.
Proof.
  revert keys. induction ms as [|m ms IH]; intros keys; simpl.
  - rewrite elem_of_nil. tauto.
  - rewrite IH, elem_of_union, elem_of_singleton, elem_of_cons. tauto.
Qed.

Lemma elem_of_harvest_from (r : regex) (keys : gset str) (texts : list str) (k : str) :
  k ∈ foldl (λ keys t,
               if truthy t then foldl (λ keys m, keys ∪ {[ m ]}) keys (findall r t)
               else keys) keys texts
  ↔ k ∈ keys ∨ ∃ t, t ∈ texts ∧ k ∈ findall r t.
Proof.
  revert keys. induction texts as [|t texts IH]; intros keys; simpl.
  - split; [auto|]. intros [?|(t & Ht & _)]; [done|]. by apply elem_of_nil in Ht.
  - rewrite IH. destruct t as [|c t]; simpl.
    + split.
      * intros [?|(t' & Ht' & Hk)]; [auto|]. right. exists t'.
        split; [by apply list_elem_of_further|done].
      * intros [?|(t' & [->|Ht']%elem_of_cons & Hk)]; [auto| |eauto].
        unfold findall in Hk. simpl in Hk. by apply elem_of_nil in Hk.
    + rewrite elem_of_add_all. split.
      * intros [[?|?]|(t' & Ht' & Hk)]; [auto| |].
        -- right. exists (c :: t). split; [apply list_elem_of_here|done].
        -- right. exists t'. split; [by apply list_elem_of_further|done].
      * intros [?|(t' & [->|Ht']%elem_of_cons & Hk)]; [auto|auto|eauto].
Qed.

Lemma elem_of_harvest (r : regex) (texts : list str) (k : str) :
  k ∈ harvest r texts ↔ ∃ t, t ∈ texts ∧ k ∈ findall r t.
Proof.
  unfold harvest. rewrite elem_of_harvest_from. split; [|auto].
  intros [Hk|?]; [|done]. by apply elem_of_empty in Hk.
Qed.
End harvest.

(** What the harvester would return if it collected every substring of a
    text that has the shape of an issue key, whatever stands around it. *)
Definition harvests_every_match {U : UnicodeData} (texts : list str) : Prop :=
  ∀ k, k ∈ extract_issue_keys texts ↔
       key_shape k ∧ ∃ t pre post, t ∈ texts ∧ t = pre ++ k ++ post.

(** C6, as stated, fails: in ["xABC-123"] the substring ["ABC-123"] has the
    shape of an issue key, and a search for the pattern without its two
    [\b] finds it, but no word boundary stands before it and the harvester
    returns nothing. *)
Lemma harvest_skips_key_inside_word :
  ¬ harvests_every_match (U:=ascii_only) [lit "xABC-123"]
  ∧ extract_issue_keys (U:=ascii_only) [lit "xABC-123"] = []
  ∧ sorted (harvest (U:=ascii_only) (ISSUE_KEY_SHAPE (U:=ascii_only)) [lit "xABC-123"]) = [lit "ABC-123"].
Proof.
  split; [|split; by vm_compute].
  intros Hall. specialize (Hall (lit "ABC-123")).
  assert (Hempty : extract_issue_keys (U:=ascii_only) [lit "xABC-123"] = [])
    by (by vm_compute).
  rewrite Hempty in Hall. apply (elem_of_nil (lit "ABC-123")), Hall. split.
  - exists 65, (lit "BC"), (lit "123"). repeat split; try done.
    + by repeat constructor.
    + by repeat constructor.
  - exists (lit "xABC-123"), (lit "x"), []. split; [apply list_elem_of_here|done].
Qed.

(** C6, amended: the harvester returns, sorted and without duplicates, the
    texts of the shape [[A-Z][A-Z0-9]+-\d+] that stand in a collected text
    between two word boundaries; ["Fixes ABC-123 and refs xy-9"] yields
    ["ABC-123"] alone. *)
Theorem harvest_delimited_keys {U : UnicodeData} (texts : list str) :
  (∀ c, uni_decimal c = true → uni_alnum c = true) →
  StronglySorted str_lt (extract_issue_keys texts)
  ∧ (∀ k, k ∈ extract_issue_keys texts ↔
          key_shape k ∧ ∃ t, t ∈ texts ∧ delimited None t k)
  ∧ extract_issue_keys [lit "Fixes ABC-123 and refs xy-9"] = [lit "ABC-123"].
Proof.
  intros decimal_alnum. split; [apply sorted_strictly|]. split; [|by vm_compute].
  intros k. unfold extract_issue_keys.
  rewrite elem_of_sorted, elem_of_harvest. split.
  - intros (t & Ht & Hk). apply (findall_spec decimal_alnum) in Hk as [??]. eauto.
  - intros (Hk & t & Ht & Hd). exists t. split; [done|].
    by apply (findall_spec decimal_alnum).
Qed.

Lemma harvest_delimited_keys_witness :
  StronglySorted str_lt
    (extract_issue_keys (U:=ascii_only) [lit "see AB-12 and CD-3"; lit "AB-12"])
  ∧ (∀ k, k ∈ extract_issue_keys (U:=ascii_only) [lit "see AB-12 and CD-3"; lit "AB-12"] ↔
          key_shape (U:=ascii_only) k
          ∧ ∃ t, t ∈ [lit "see AB-12 and CD-3"; lit "AB-12"]
                 ∧ delimited (U:=ascii_only) None t k)
  ∧ extract_issue_keys (U:=ascii_only) [lit "Fixes ABC-123 and refs xy-9"] = [lit "ABC-123"].
Proof.
  apply (harvest_delimited_keys (U:=ascii_only)). intros c. simpl. discriminate.
Defined.

(** ** jira_component_hook.py: the batch ensurer *)

(** The issue key a line of the log is about. *)
Definition logged_key (l : JiraComponentHook.line) : option str :=
  match l with
  | JiraComponentHook.Nothing_to_do => None
  | JiraComponentHook.OK key _
  | JiraComponentHook.WARN_response key _
  | JiraComponentHook.WARN key _ => Some key
  end.

Section hook.
Import Tracker JiraComponentHook.
Context {U : UnicodeData} {S : Type} {T : Transport S}.
Variable REPO_NAME : str.
Implicit Types (w : world S) (key : str).

(** One turn of the loop. *)
Definition attempt key : M (world S) () :=
  try_except (ensure REPO_NAME key) (warn key).

(** Creating a component stops at the unbound global, before any request. *)
Lemma jira_create_component_raises project name w :
  jira_create_component project name w = (w, Raised (NameError "JIRA_COMPONENT_LEAD")).
Proof. reflexivity. Qed.

Lemma warn_prints key e w :
  ∃ l, warn key e w = (World (tracker w) (sent w) (stdout w ++ [l]), Returned ())
       ∧ logged_key l = Some key.
Proof. destruct e; simpl; eauto. Qed.

(** [c] only sends requests: it prints nothing and does not exit. *)
Definition sends_only {A} (c : M (world S) A) : Prop :=
  ∀ w, ∃ s more o,
    c w = (World s (sent w ++ more) (stdout w), o) ∧ ∀ n, o ≠ Exited n.

(** [c] sends requests, then either prints [OK] for [key] and returns,
    or raises with nothing printed. *)
Definition ends_ok key (c : M (world S) ()) : Prop :=
  ∀ w, ∃ s more,
    c w = (World s (sent w ++ more) (stdout w ++ [OK key REPO_NAME]), Returned ())
    ∨ ∃ e, c w = (World s (sent w ++ more) (stdout w), Raised e).

Lemma sends_only_ret {A} (a : A) : sends_only (Run.ret a).
Proof. intros [s q l]. exists s, [], (Returned a). by rewrite app_nil_r. Qed.

Lemma sends_only_raise {A} e : sends_only (Run.raise (A:=A) e).
Proof. intros [s q l]. exists s, [], (Raised e). by rewrite app_nil_r. Qed.

Lemma sends_only_requests q : sends_only (requests q).
Proof.
  intros w. unfold requests.
  destruct (send q (tracker w)) as [s [e|r]]; eexists s, [q], _; split; done.
Qed.

Lemma sends_only_bind {A B} (c : M (world S) A) (k : A → M (world S) B) :
  sends_only c → (∀ a, sends_only (k a)) → sends_only (Run.bind c k).
Proof.
  intros Hc Hk w. unfold Run.bind.
  destruct (Hc w) as (s & more & o & -> & Ho). destruct o as [a|e|n].
  - destruct (Hk a (World s (sent w ++ more) (stdout w)))
      as (s' & more' & o' & -> & Ho').
    exists s', (more ++ more'), o'. simpl. by rewrite app_assoc.
  - by exists s, more, (Raised e).
  - by destruct (Ho n).
Qed.

Lemma sends_only_raise_for_status r : sends_only (raise_for_status r).
Proof.
  unfold raise_for_status.
  destruct (_ && _); [apply sends_only_raise|apply sends_only_ret].
Qed.

Lemma sends_only_get_issue_project key : sends_only (jira_get_issue_project key).
Proof.
  apply sends_only_bind; [apply sends_only_requests|]. intros r.
  apply sends_only_bind; [apply sends_only_raise_for_status|]. intros _.
  destruct (json r); auto using sends_only_ret, sends_only_raise.
Qed.

Lemma sends_only_list_components project : sends_only (jira_list_components project).
Proof.
  apply sends_only_bind; [apply sends_only_requests|]. intros r.
  apply sends_only_bind; [apply sends_only_raise_for_status|]. intros _.
  destruct (json r); auto using sends_only_ret, sends_only_raise.
Qed.

Lemma sends_only_add_component key component_id :
  sends_only (jira_add_component_to_issue key component_id).
Proof.
  apply sends_only_bind; [apply sends_only_requests|]. intros r.
  destruct (bool_decide _);
    [apply sends_only_raise_for_status|apply sends_only_ret].
Qed.

Lemma ends_ok_bind {A} key (c : M (world S) A) (k : A → M (world S) ()) :
  sends_only c → (∀ a, ends_ok key (k a)) → ends_ok key (Run.bind c k).
Proof.
  intros Hc Hk w. unfold Run.bind.
  destruct (Hc w) as (s & more & o & -> & Ho). destruct o as [a|e|n].
  - destruct (Hk a (World s (sent w ++ more) (stdout w)))
      as (s' & more' & [-> | [e ->]]);
      exists s', (more ++ more'); simpl; rewrite app_assoc; eauto.
  - exists s, more. eauto.
  - by destruct (Ho n).
Qed.

Lemma ends_ok_print key : ends_ok key (print (OK key REPO_NAME)).
Proof. intros [s q l]. exists s, []. left. unfold print. simpl. by rewrite app_nil_r. Qed.

(** What [ensure] does once it knows the project of the issue. *)
Definition ensure_in key (project : str * str) : M (world S) () :=
  (comps ← jira_list_components project.1;
   comp ← match comps !! REPO_NAME with
          | Some comp => Run.ret (Some comp)
          | None => jira_create_component project.1 REPO_NAME
          end;
   component_id ← match comp with
                  | Some comp => Run.ret (id comp)
                  | None => Run.raise TypeError
                  end;
   jira_add_component_to_issue key component_id;;
   print (OK key REPO_NAME))%run.

Lemma ensure_in_ends_ok key project : ends_ok key (ensure_in key project).
Proof.
  apply ends_ok_bind; [apply sends_only_list_components|]. intros comps.
  apply ends_ok_bind.
  { destruct (comps !! REPO_NAME); [apply sends_only_ret|].
    intros w. rewrite jira_create_component_raises. apply sends_only_raise. }
  intros comp. apply ends_ok_bind.
  { destruct comp; [apply sends_only_ret|apply sends_only_raise]. }
  intros component_id.
  apply ends_ok_bind; [apply sends_only_add_component|]. intros _.
  apply ends_ok_print.
Qed.

(** A turn of the loop on [key] asks for the project of [key], sends
    what else it sends, and ends with one line about [key]. *)
Definition turn_of key w (r : world S * outcome ()) : Prop :=
  ∃ s more l,
    r = (World s (sent w ++ GET_issue_project key :: more) (stdout w ++ [l]),
         Returned ())
    ∧ logged_key l = Some key.

(** Whatever the tracker answers and whatever is raised on the way, a
    turn of the loop returns. *)
Lemma attempt_returns key w : turn_of key w (attempt key w).
Proof.
  unfold turn_of, attempt, try_except.
  change (ensure REPO_NAME key)
    with (Run.bind (jira_get_issue_project key) (ensure_in key)).
  unfold jira_get_issue_project, Run.bind at 1 2, requests.
  destruct (send (GET_issue_project key) (tracker w)) as [s [e|r]].
  { destruct (warn_prints key e (World s (sent w ++ [GET_issue_project key]) (stdout w)))
      as (l & -> & Hl). by exists s, [], l. }
  set (w1 := World s (sent w ++ [GET_issue_project key]) (stdout w)).
  destruct (sends_only_bind (raise_for_status r)
              (λ _, match json r with
                    | Project key id => Run.ret (key, id)
                    | Unusable e => Run.raise e
                    | _ => Run.raise KeyError
                    end)
              (sends_only_raise_for_status r)
              (λ _, ltac:(destruct (json r);
                          auto using sends_only_ret, sends_only_raise)) w1)
    as (s2 & more2 & o2 & -> & Hno).
  subst w1. simpl. rewrite <- app_assoc. simpl.
  destruct o2 as [project|e|n]; [| |by destruct (Hno n)].
  - set (w2 := World _ _ _).
    destruct (ensure_in_ends_ok key project w2) as (s3 & more3 & [-> | [e ->]]);
      subst w2; simpl; rewrite <- app_assoc; simpl.
    + eexists _, _, _. split; [reflexivity|done].
    + match goal with
      | |- context [warn key e ?w] =>
          destruct (warn_prints key e w) as (l & -> & Hl)
      end.
      eexists _, _, _. split; [reflexivity|done].
  - match goal with
    | |- context [warn key e ?w] =>
        destruct (warn_prints key e w) as (l & -> & Hl)
    end.
    eexists _, _, _. split; [reflexivity|done].
Qed.

Lemma process_cons key keys w :
  process REPO_NAME (key :: keys) w = process REPO_NAME keys (attempt key w).1.
Proof.
  unfold process. cbn [for_each]. unfold Run.bind. fold (attempt key).
  by destruct (attempt_returns key w) as (s & more & l & -> & _).
Qed.


Lemma process_returns keys w :
  ∃ s more lines,
    process REPO_NAME keys w
    = (World s (sent w ++ more) (stdout w ++ lines), Returned ())
    ∧ logged_key <$> lines = Some <$> keys.
Proof.
  revert w. induction keys as [|key keys IH]; intros w.
  - exists (tracker w), [], []. rewrite !app_nil_r. by destruct w.
  - rewrite process_cons.
    destruct (attempt_returns key w) as (s & more & l & -> & Hl). simpl.
    destruct (IH (World s (sent w ++ GET_issue_project key :: more) (stdout w ++ [l])))
      as (s' & more' & lines & -> & Hlines). simpl.
    exists s', ((GET_issue_project key :: more) ++ more'), (l :: lines).
    split; [by rewrite <- !app_assoc|]. by rewrite !fmap_cons, Hl, Hlines.
Qed.

End hook.

(** A tracker to run the scripts on: project [ABC] has the component named
    after the repository, project [NEW] has no component. *)
Definition repo : str := lit "webhooks-test-repo".
Definition demo : Tracker.jira :=
  Tracker.Jira
    {[ lit "ABC" := [Tracker.Component (lit "10000") repo]; lit "NEW" := [] ]}
    {[ lit "ABC-1" := Tracker.Issue (lit "ABC") [];
       lit "ABC-3" := Tracker.Issue (lit "ABC") [];
       lit "NEW-7" := Tracker.Issue (lit "NEW") [] ]}
    10001.

(** A tracker whose issues carry components already: [DOC-1] has [docs];
    [DOC-2] has [docs] and the component of the repository. *)
Definition docs : Tracker.component := Tracker.Component (lit "20000") (lit "docs").
Definition listed : Tracker.component := Tracker.Component (lit "20001") repo.
Definition staffed : Tracker.jira :=
  Tracker.Jira
    {[ lit "DOC" := [docs; listed] ]}
    {[ lit "DOC-1" := Tracker.Issue (lit "DOC") [docs];
       lit "DOC-2" := Tracker.Issue (lit "DOC") [docs; listed] ]}
    20002.

Section hook_runs.
Import Tracker JiraComponentHook.

(** Three keys, the second of an issue the tracker does not have. *)
Example batch_of_three :
  stdout (process repo [lit "ABC-1"; lit "ABC-2"; lit "ABC-3"] (start demo)).1
  = [OK (lit "ABC-1") repo; WARN_response (lit "ABC-2") (HTTPError 404);
     OK (lit "ABC-3") repo].
Proof. by vm_compute. Qed.


(** C1 fails on the code: [jira_create_component] reads the global
    [JIRA_COMPONENT_LEAD], which the module never binds.  For the issue
    [NEW-7], whose project has no component of the repository's name, the
    run sends no create and no attach request, warns, and leaves the
    tracker as it was. *)
Theorem create_if_absent_never_creates :
  main (U:=ascii_only) repo [lit "Fixes NEW-7"] (start demo)
  = (World demo
       [GET_issue_project (lit "NEW-7"); GET_project_components (lit "NEW")]
       [WARN (lit "NEW-7") (NameError "JIRA_COMPONENT_LEAD")],
     Returned ()).
Proof. by vm_compute. Qed.
End hook_runs.


(** ** The additive attach *)

Section attach.
Import Tracker JiraComponentHook.

(** The tracker reads an [Add] as one more component at the end, or as
    nothing when it is attached already. *)
Lemma apply_add_keeps available attached component_id cs :
  apply_edit available attached (Update_components [Add component_id]) = Some cs →
  attached `prefix_of` cs.
Proof.
  simpl. destruct (by_id component_id available) as [c|]; simpl; [|done].
  intros [= <-]. case_bool_decide; [done|]. by apply prefix_app_r.
Qed.

Lemma edit_issue_add_keeps key component_id (j : jira) other i :
  issues j !! other = Some i →
  ∃ i', issues (edit_issue key (Update_components [Add component_id]) j).1 !! other
        = Some i'
        ∧ project_key i' = project_key i
        ∧ components i `prefix_of` components i'.
Proof.
  intros Hi. unfold edit_issue.
  destruct (issues j !! key) as [i0|] eqn:Hkey; [|by exists i].
  destruct (apply_edit _ _ _) as [cs|] eqn:Hcs; [|by exists i].
  simpl. destruct (decide (key = other)) as [->|Hne].
  - rewrite lookup_insert_eq. rewrite Hi in Hkey. injection Hkey as <-.
    eexists. split; [done|]. split; [done|]. simpl. by eapply apply_add_keeps.
  - rewrite lookup_insert_ne by done. by exists i.
Qed.

(** C9: whatever the tracker does, the attach sends one request, an edit
    of the issue whose only operation is an [Add] of the component; on the
    reference tracker every issue keeps the components it had. *)
Theorem additive_attach {S} {T : Transport S} (issue_key component_id : str)
    (w : world S) :
  sent (jira_add_component_to_issue issue_key component_id w).1
  = sent w ++ [PUT_issue issue_key (Update_components [Add component_id])]
  ∧ ∀ (j : jira) other i,
      issues j !! other = Some i →
      ∃ i', issues (tracker (jira_add_component_to_issue (T:=reference)
                               issue_key component_id (start j)).1) !! other
            = Some i'
            ∧ project_key i' = project_key i
            ∧ components i `prefix_of` components i'.
Proof.
  split.
  - unfold jira_add_component_to_issue, Run.bind, requests.
    destruct (send _ (tracker w)) as [s [e|r]]; [done|].
    unfold raise_for_status. simpl.
    by repeat (case_bool_decide || case_match).
  - intros j other i Hi.
    destruct (edit_issue_add_keeps issue_key component_id j other i Hi)
      as (i' & Hi' & Hp & Hc).
    exists i'. split; [|done]. rewrite <- Hi'.
    unfold jira_add_component_to_issue, Run.bind, requests, send, reference. simpl.
    destruct (edit_issue _ _ j) as [j' [status|[]]]; simpl.
    + unfold raise_for_status. simpl. by repeat (case_bool_decide || case_match).
    + unfold raise_for_status. simpl. by repeat (case_bool_decide || case_match).
Qed.

Lemma additive_attach_witness :
  ∃ i', issues (tracker (jira_add_component_to_issue (T:=reference)
                           (lit "DOC-1") (lit "20001") (start staffed)).1) !! lit "DOC-1"
        = Some i'
        ∧ project_key i' = lit "DOC"
        ∧ [docs] `prefix_of` components i'.
Proof.
  apply (proj2 (additive_attach (T:=reference) (lit "DOC-1") (lit "20001")
                  (start staffed))
           staffed (lit "DOC-1") (Issue (lit "DOC") [docs])).
  by vm_compute.
Defined.

(** The issue keeps [docs] and gains the component. *)
Example attach_keeps_docs :
  issues (tracker (jira_add_component_to_issue (T:=reference)
                     (lit "DOC-1") (lit "20001") (start staffed)).1) !! lit "DOC-1"
  = Some (Issue (lit "DOC") [docs; listed]).
Proof. by vm_compute. Qed.

Example attach_to_issue :
  issues (tracker (jira_add_component_to_issue (T:=reference)
                     (lit "ABC-1") (lit "10000") (start demo)).1) !! lit "ABC-1"
  = Some (Issue (lit "ABC") [Component (lit "10000") repo]).
Proof. by vm_compute. Qed.
End attach.


(** ** add_jira_component.py *)

(** A call that changes the tracker. *)
Definition mutating (c : AddJiraComponent.call) : bool :=
  match c with
  | AddJiraComponent.create_component_ _ _ _ | AddJiraComponent.update_ _ _ => true
  | _ => false
  end.

(** The environment holds the five required variables and an allow-list
    that is not blank. *)
Definition configured (environ : gmap string str)
    (jira_base_url jira_user_email jira_api_token issue_key component_name
       jira_project_filter : str) : Prop :=
  environ !! "JIRA_BASE_URL"%string = Some jira_base_url
  ∧ environ !! "JIRA_USER_EMAIL"%string = Some jira_user_email
  ∧ environ !! "JIRA_API_TOKEN"%string = Some jira_api_token
  ∧ environ !! "ISSUE_KEY"%string = Some issue_key
  ∧ environ !! "COMPONENT_NAME"%string = Some component_name
  ∧ environ !! "JIRA_PROJECT"%string = Some jira_project_filter
  ∧ jira_base_url ≠ [] ∧ jira_user_email ≠ [] ∧ jira_api_token ≠ []
  ∧ issue_key ≠ [] ∧ component_name ≠ []
  ∧ strip jira_project_filter ≠ [].

Definition skipped (reason : string) : list str :=
  [lit "status=skipped"; lit "skip_reason=" ++ lit reason].
Definition processed : list str := [lit "status=processed"].

Lemma truthy_nonempty s : s ≠ [] → truthy s = true.
Proof. by destruct s. Qed.

(** The surroundings let the run print these strings and append to its
    output file. *)
Definition hospitable {H : AddJiraComponent.Host} (environ : gmap string str)
    (texts : list str) : Prop :=
  AddJiraComponent.speakable texts = true
  ∧ AddJiraComponent.open_raises (AddJiraComponent.output_path environ) = None.

(** The condition that selects what a run does next. *)
Ltac scrutinee t :=
  lazymatch t with
  | match ?x with _ => _ end => scrutinee x
  | (match ?x with _ => _ end) _ => scrutinee x
  | _ => t
  end.

Ltac run_step :=
  lazymatch goal with
  | |- context [match ?x with _ => _ end] =>
      let y := scrutinee x in
      lazymatch y with
      | bool_decide ?P => destruct (bool_decide_reflect P)
      | _ => destruct y eqn:?
      end
  end; simpl.

Ltac run_ensure :=
  unfold AddJiraComponent.ensure, AddJiraComponent.skip, AddJiraComponent.open_append,
    AddJiraComponent.invoke, AddJiraComponent.write, AddJiraComponent.print,
    Run.try_except, Run.bind, Run.ret, Run.raise, Run.sys_exit,
    AddJiraComponent.start;
  simpl.

Section speech.
Import Tracker AddJiraComponent.
Context {U : UnicodeData} {H : Host}.

Lemma speakable_nil : speakable [] = true.
Proof. done. Qed.

Lemma speakable_cons p ps :
  speakable (p :: ps) = forallb encodable p && speakable ps.
Proof. done. Qed.

Lemma speakable_app ps qs : speakable (ps ++ qs) = speakable ps && speakable qs.
Proof. unfold speakable. apply forallb_app. Qed.

Lemma encodable_repr p :
  forallb encodable p = true → forallb encodable (repr_keeps p) = true.
Proof.
  unfold repr_keeps. induction p as [|c p IH]; simpl; [done|].
  intros [Hc Hp]%andb_true_iff. destruct (isprintable c); simpl; auto.
  by rewrite Hc, IH.
Qed.

Lemma speakable_repr ps :
  speakable ps = true → speakable (repr_keeps <$> ps) = true.
Proof.
  induction ps as [|p ps IH]; [done|].
  rewrite fmap_cons, !speakable_cons. intros [Hp Hps]%andb_true_iff.
  by rewrite encodable_repr, IH.
Qed.

Lemma encodable_digits d :
  forallb encodable (lit (NilEmpty.string_of_uint d)) = true.
Proof. unfold lit. induction d; simpl; try done; by rewrite IHd. Qed.

Lemma encodable_fresh_id n : forallb encodable (fresh_id n) = true.
Proof. apply encodable_digits. Qed.

Lemma speakable_cons_intro p ps :
  forallb encodable p = true → speakable ps = true → speakable (p :: ps) = true.
Proof. intros Hp Hps. by rewrite speakable_cons, Hp, Hps. Qed.

Lemma speakable_app_intro ps qs :
  speakable ps = true → speakable qs = true → speakable (ps ++ qs) = true.
Proof. intros Hps Hqs. by rewrite speakable_app, Hps, Hqs. Qed.

End speech.

Ltac spoken :=
  repeat first
    [ assumption
    | apply speakable_nil
    | apply encodable_fresh_id
    | apply speakable_cons_intro
    | apply speakable_app_intro
    | apply speakable_repr
    | apply encodable_repr ].

(** A [print] of strings that stdout is known to encode. *)
Ltac say :=
  lazymatch goal with
  | |- context [AddJiraComponent.speakable ?p] =>
      let Hs := fresh in
      assert (AddJiraComponent.speakable p = true) as Hs by spoken;
      rewrite Hs; clear Hs; simpl
  end.

(** The strings a run has printed are strings stdout encodes. *)
Ltac heard :=
  repeat match goal with
         | Hs : AddJiraComponent.speakable (_ :: _) = true |- _ =>
             rewrite speakable_cons in Hs; apply andb_true_iff in Hs;
             destruct Hs as [? ?]
         | Hs : AddJiraComponent.speakable [] = true |- _ => clear Hs
         end.

Section add.
Import Tracker AddJiraComponent.
Context {U : UnicodeData} {S : Type} {C : Client S} {H : Host}.
Implicit Types (environ : gmap string str) (s : S).

Lemma main_configured environ url email token key name flt :
  configured environ url email token key name flt →
  main environ
  = if bool_decide (parse_project_filter flt = []) then
      print [circled_slash];; print [flt];;
      skip (output_path environ) "invalid_project_filter"
    else
      announce (parse_project_filter flt);;
      try_except (ensure (output_path environ) url email token key name
                    (parse_project_filter flt))
                 (λ e, sys_exit 1).
Proof.
  unfold main.
  intros (-> & -> & -> & -> & -> & -> & ? & ? & ? & ? & ? & Hstrip). simpl.
  rewrite !truthy_nonempty by done. simpl.
  rewrite truthy_nonempty by (by intros ->).
  rewrite bool_decide_eq_false_2 by done. done.
Qed.

Lemma main_cases environ :
  main environ = missing environ
  ∨ main environ
    = (print [circled_slash];; skip (output_path environ) "missing_project_filter")
  ∨ (∃ flt, main environ
            = (print [circled_slash];; print [flt];;
               skip (output_path environ) "invalid_project_filter"))
  ∨ ∃ url email token key name allowed,
      main environ
      = (announce allowed;;
         try_except (ensure (output_path environ) url email token key name allowed)
                    (λ e, sys_exit 1)).
Proof. unfold main. repeat case_match; eauto 12. Qed.

Lemma print_cases parts (w : world S) :
  print parts w = (w, Returned ()) ∨ print parts w = (w, Raised UnicodeEncodeError).
Proof. unfold print. destruct (speakable parts); auto. Qed.

Lemma announce_cases allowed (w : world S) :
  announce allowed w = (w, Returned ())
  ∨ announce allowed w = (w, Raised UnicodeEncodeError).
Proof.
  unfold announce, Run.bind, print.
  destruct allowed as [|p [|q l]]; repeat destruct (speakable _); auto.
Qed.

Lemma after_announce allowed :
  (∀ A (k : M (world S) A) w, (announce allowed;; k) w = k w)
  ∨ (∀ A (k : M (world S) A) w,
        (announce allowed;; k) w = (w, Raised UnicodeEncodeError)).
Proof.
  unfold announce, Run.bind, print.
  destruct allowed as [|p [|q l]]; repeat destruct (speakable _); auto.
Qed.

Lemma announce_speakable {A} allowed (k : M (world S) A) (w : world S) :
  speakable allowed = true → (announce allowed;; k) w = k w.
Proof.
  intros Hallowed. unfold announce, Run.bind, print.
  destruct allowed as [|p [|q l]];
    by rewrite ?(speakable_repr _ Hallowed), ?Hallowed.
Qed.

(** The guarded part of [main] ends in one of three ways. *)
Lemma guarded_outcomes path url email token key name allowed s w o :
  try_except (ensure path url email token key name allowed) (λ e, sys_exit 1) (start s)
  = (w, o) →
  (o = Exited 1 ∧ github_output w = [])
  ∨ (o = Exited 0 ∧ github_output w = skipped "project_not_allowed"
     ∧ existsb raised (calls w) = false
     ∧ existsb (λ ev, mutating (what ev)) (calls w) = false)
  ∨ (o = Returned () ∧ github_output w = processed
     ∧ existsb raised (calls w) = false).
Proof.
  run_ensure. repeat run_step; intros [= <- <-]; simpl; auto 10.
Qed.

(** A run ends in one of five ways: exit status 1 with nothing written, or
    exit status 0 with no call that raised and one of the four markers. *)
Lemma script_outcomes environ s :
  ((script environ s).2 = 1%Z ∧ github_output (script environ s).1 = [])
  ∨ ((script environ s).2 = 0%Z
     ∧ existsb raised (calls (script environ s).1) = false
     ∧ (github_output (script environ s).1 = skipped "missing_project_filter"
        ∨ github_output (script environ s).1 = skipped "invalid_project_filter"
        ∨ github_output (script environ s).1 = skipped "project_not_allowed"
        ∨ github_output (script environ s).1 = processed)).
Proof.
  unfold script.
  destruct (main_cases environ)
    as [-> | [-> | [(flt & ->) | (url & email & token & key & name & allowed & ->)]]].
  - left. unfold missing, Run.bind, print, sys_exit.
    by repeat destruct (speakable _).
  - unfold Run.bind, print, skip, open_append, write, sys_exit, Run.bind.
    destruct (speakable _); [|by left].
    destruct (open_raises _); [by left|]. right. simpl. auto.
  - unfold Run.bind, print, skip, open_append, write, sys_exit, Run.bind.
    repeat (destruct (speakable _); [|by left]).
    destruct (open_raises _); [by left|]. right. simpl. auto.
  - destruct (after_announce allowed) as [Ha|Ha]; rewrite !Ha; [|by left].
    destruct (try_except _ _ (start s)) as [w o] eqn:Hrun.
    apply guarded_outcomes in Hrun
        as [(-> & Hout) | [(-> & Hout & Hcalls & _) | (-> & Hout & Hcalls)]];
      simpl; auto 10.
Qed.

(** C10: when a call on the tracker raised, the process exits with status
    1 and the output file has gained nothing; whenever the exit status is
    not 0 nothing was written, and a marker is written only with exit
    status 0, as [status=processed] or as [status=skipped] and its reason. *)
Theorem fatal_path_writes_nothing environ s :
  (existsb raised (calls (script environ s).1) = true →
   (script environ s).2 = 1%Z ∧ github_output (script environ s).1 = [])
  ∧ ((script environ s).2 ≠ 0%Z →
     (script environ s).2 = 1%Z ∧ github_output (script environ s).1 = [])
  ∧ (github_output (script environ s).1 ≠ [] →
     (script environ s).2 = 0%Z
     ∧ (github_output (script environ s).1 = processed
        ∨ ∃ reason, github_output (script environ s).1 = skipped reason)).
Proof.
  destruct (script_outcomes environ s) as [[-> ->] | (-> & Hcalls & Hout)].
  - split; [done|]. split; done.
  - split; [by rewrite Hcalls|]. split; [done|]. intros _. split; [done|].
    destruct Hout as [Hout | [Hout | [Hout | Hout]]]; eauto.
Qed.

(** C4: an issue whose project key, in upper case, is not in the parsed
    allow-list is read and no more: whatever the surroundings, the run
    makes no call that creates a component or updates an issue; and where
    it can print and open its output file, it calls the tracker to connect
    and to read the issue, writes the skip marker with the reason
    [project_not_allowed], and exits with status 0. *)
Theorem project_not_allowed_skips environ url email token key name flt s s1 s2 i :
  configured environ url email token key name flt →
  parse_project_filter flt ≠ [] →
  connect url (email, token) s = (s1, inr ()) →
  fetch_issue key s1 = (s2, inr i) →
  upper (project_key i) ∉ parse_project_filter flt →
  existsb (λ ev, mutating (what ev)) (calls (script environ s).1) = false
  ∧ (hospitable environ
       ([circled_slash; url; key; project_key i] ++ parse_project_filter flt) →
     script environ s
     = (World s2 [Event (JIRA url (email, token)) false; Event (issue_ key) false]
          (skipped "project_not_allowed"), 0%Z)).
Proof.
  intros Hconf Hallowed Hconnect Hfetch Hnot.
  unfold script. rewrite (main_configured _ _ _ _ _ _ _ Hconf).
  rewrite bool_decide_eq_false_2 by done.
  split.
  - destruct (after_announce (parse_project_filter flt)) as [Ha|Ha]; rewrite !Ha;
      [|done].
    run_ensure. destruct (speakable [url]); [|done]. simpl. rewrite Hconnect. simpl.
    destruct (speakable [key]); [|done]. simpl. rewrite Hfetch. simpl.
    destruct (speakable [project_key i]); [|done]. simpl.
    rewrite bool_decide_eq_true_2 by done. simpl.
    repeat (destruct (speakable _); [|done]; simpl).
    by destruct (open_raises _).
  - intros [Hspeak Hopen]. revert Hspeak.
    rewrite speakable_app, !speakable_cons, !andb_true_iff.
    intros ((Hsign & Hurl & Hkey & Hproject & _) & Hlist).
    rewrite (announce_speakable _ _ _ Hlist).
    run_ensure. say. rewrite Hconnect. simpl. say. rewrite Hfetch. simpl. say.
    rewrite bool_decide_eq_true_2 by done. simpl. repeat say. by rewrite Hopen.
Qed.

(** When the create call raises, whatever the exception, the run stops
    there: no further call, nothing written, exit status 1. *)
Lemma create_raises_is_fatal environ url email token key name flt s s1 s2 s3 s4 i cs e :
  configured environ url email token key name flt →
  speakable ([check_mark; url; key; project_key i; name] ++ parse_project_filter flt)
  = true →
  connect url (email, token) s = (s1, inr ()) →
  fetch_issue key s1 = (s2, inr i) →
  upper (project_key i) ∈ parse_project_filter flt →
  project_components (project_key i) s2 = (s3, inr cs) →
  name ∉ names cs →
  new_component name (project_key i)
    (description_of name) s3 = (s4, inl e) →
  script environ s
  = (World s4
       [Event (JIRA url (email, token)) false; Event (issue_ key) false;
        Event (project_components_ (project_key i)) false;
        Event (create_component_ name (project_key i)
                 (description_of name)) true]
       [], 1%Z).
Proof.
  intros Hconf Hspeak Hconnect Hfetch Hallowed Hlist Hname Hcreate.
  revert Hspeak. rewrite speakable_app, !speakable_cons, !andb_true_iff.
  intros ((Hsign & Hurl & Hkey & Hproject & Hn & _) & Hflt).
  unfold script. rewrite (main_configured _ _ _ _ _ _ _ Hconf).
  rewrite bool_decide_eq_false_2 by (intros Hnil; rewrite Hnil in Hallowed; set_solver).
  rewrite (announce_speakable _ _ _ Hflt).
  run_ensure. say. rewrite Hconnect. simpl. say. rewrite Hfetch. simpl. say.
  rewrite bool_decide_eq_false_2 by (by intros ?). simpl. repeat say.
  rewrite Hlist. simpl. rewrite bool_decide_eq_true_2 by done. simpl. repeat say.
  rewrite Hcreate. done.
Qed.
End add.


(** Runs of the script on the tracker [demo]. *)
Definition environment (issue_key component_name jira_project : string)
    : gmap string str :=
  {[ "JIRA_BASE_URL"%string := lit "https://example.atlassian.net";
     "JIRA_USER_EMAIL"%string := lit "ci@example.com";
     "JIRA_API_TOKEN"%string := lit "token";
     "ISSUE_KEY"%string := lit issue_key;
     "COMPONENT_NAME"%string := lit component_name;
     "JIRA_PROJECT"%string := lit jira_project ]}.

(** The same with [GITHUB_OUTPUT] set, as on a runner. *)
Definition on_runner (environ : gmap string str) : gmap string str :=
  <["GITHUB_OUTPUT"%string := lit "/home/runner/work/_temp/output"]> environ.

Lemma environment_configured issue_key component_name jira_project :
  lit issue_key ≠ [] → lit component_name ≠ [] → strip (lit jira_project) ≠ [] →
  configured (environment issue_key component_name jira_project)
    (lit "https://example.atlassian.net") (lit "ci@example.com") (lit "token")
    (lit issue_key) (lit component_name) (lit jira_project).
Proof. intros ???. unfold configured, environment. by repeat split. Qed.

Lemma on_runner_configured environ url email token key name flt :
  configured environ url email token key name flt →
  configured (on_runner environ) url email token key name flt.
Proof.
  unfold configured, on_runner. intros (? & ? & ? & ? & ? & ? & ?).
  by rewrite !lookup_insert_ne by done.
Qed.

(** A client of the reference tracker that loses a race: between the
    listing of the components and the create call of the script, another
    actor creates the component, and the create call answers 409. *)
Definition raced : AddJiraComponent.Client Tracker.jira := {|
  AddJiraComponent.connect := AddJiraComponent.connect (Client:=AddJiraComponent.reference);
  AddJiraComponent.fetch_issue := AddJiraComponent.fetch_issue;
  AddJiraComponent.project_components := AddJiraComponent.project_components;
  AddJiraComponent.new_component n project description j :=
    AddJiraComponent.new_component n project description
      (Tracker.create_component n project j).1;
  AddJiraComponent.update_issue := AddJiraComponent.update_issue
|}.

(** The surroundings of the runs below: a standard output in UTF-8, which
    has every code point but the surrogates, and files that open unless
    the path is empty. *)
Definition runner : AddJiraComponent.Host := {|
  AddJiraComponent.stdout_encodes c := negb (between 55296 57343 c);
  AddJiraComponent.open_raises path := if truthy path then None else Some OSError
|}.

(** A standard output in ASCII. *)
Definition ascii_runner : AddJiraComponent.Host := {|
  AddJiraComponent.stdout_encodes _ := false;
  AddJiraComponent.open_raises path := if truthy path then None else Some OSError
|}.

Section add_runs.
Import Tracker AddJiraComponent.
#[local] Existing Instance runner.

Lemma fatal_path_writes_nothing_witness :
  ((script (U:=ascii_only) (environment "ABC-9" "webhooks-test-repo" "abc") demo).2 = 1%Z
   ∧ github_output
       (script (U:=ascii_only) (environment "ABC-9" "webhooks-test-repo" "abc") demo).1
     = [])
  ∧ ((script (U:=ascii_only) (environment "ABC-1" "webhooks-test-repo" "abc") demo).2 = 0%Z
     ∧ (github_output
          (script (U:=ascii_only) (environment "ABC-1" "webhooks-test-repo" "abc") demo).1
        = processed
        ∨ ∃ reason,
            github_output
              (script (U:=ascii_only)
                 (environment "ABC-1" "webhooks-test-repo" "abc") demo).1
            = skipped reason)).
Proof.
  split.
  - apply (proj1 (fatal_path_writes_nothing (U:=ascii_only)
                    (environment "ABC-9" "webhooks-test-repo" "abc") demo)).
    reflexivity.
  - apply (proj2 (proj2 (fatal_path_writes_nothing (U:=ascii_only)
                           (environment "ABC-1" "webhooks-test-repo" "abc") demo))).
    compute_done.
Defined.

Lemma project_not_allowed_skips_witness :
  existsb (λ ev, mutating (what ev))
    (calls (script (U:=ascii_only)
              (on_runner (environment "NEW-7" "webhooks-test-repo" "abc, dev"))
              demo).1) = false
  ∧ script (U:=ascii_only)
      (on_runner (environment "NEW-7" "webhooks-test-repo" "abc, dev")) demo
    = (World demo
         [Event (JIRA (lit "https://example.atlassian.net")
                   (lit "ci@example.com", lit "token")) false;
          Event (issue_ (lit "NEW-7")) false]
         (skipped "project_not_allowed"), 0%Z).
Proof.
  destruct (project_not_allowed_skips (U:=ascii_only) (C:=reference)
              (on_runner (environment "NEW-7" "webhooks-test-repo" "abc, dev"))
              (lit "https://example.atlassian.net") (lit "ci@example.com")
              (lit "token") (lit "NEW-7") (lit "webhooks-test-repo") (lit "abc, dev")
              demo demo demo (Issue (lit "NEW") []))
    as [Hcalls Hrun].
  - by apply on_runner_configured, environment_configured.
  - compute_done.
  - reflexivity.
  - reflexivity.
  - compute_done.
  - split; [exact Hcalls|]. apply Hrun. split; reflexivity.
Defined.

(** The same run where the standard output is in ASCII, or where
    [GITHUB_OUTPUT] is set to the empty string: the sign of the skip
    message cannot be printed, or the file cannot be opened, and the run
    ends with status 1 and nothing written. *)
Example skip_needs_its_surroundings :
  script (U:=ascii_only) (H:=ascii_runner)
    (environment "NEW-7" "webhooks-test-repo" "abc, dev") demo
  = (World demo
       [Event (JIRA (lit "https://example.atlassian.net")
                 (lit "ci@example.com", lit "token")) false;
        Event (issue_ (lit "NEW-7")) false]
       [], 1%Z)
  ∧ script (U:=ascii_only)
      (<["GITHUB_OUTPUT"%string := []]>
         (environment "NEW-7" "webhooks-test-repo" "abc, dev")) demo
    = (World demo
         [Event (JIRA (lit "https://example.atlassian.net")
                   (lit "ci@example.com", lit "token")) false;
          Event (issue_ (lit "NEW-7")) false]
         [], 1%Z).
Proof. by vm_compute. Qed.

(** C2 fails on the code: the create call is not guarded.  When another
    actor creates the component first and the create call of the script
    raises the conflict, the run makes no further call (no second listing,
    no update of the issue), writes nothing and exits with status 1,
    although the component is now in the project. *)
Theorem conflict_on_create_is_fatal :
  script (U:=ascii_only) (C:=raced) (environment "NEW-7" "webhooks-test-repo" "new") demo
  = (World (Tracker.create_component repo (lit "NEW") demo).1
       [Event (JIRA (lit "https://example.atlassian.net")
                 (lit "ci@example.com", lit "token")) false;
        Event (issue_ (lit "NEW-7")) false;
        Event (project_components_ (lit "NEW")) false;
        Event (create_component_ repo (lit "NEW") (description_of repo)) true]
       [], 1%Z)
  ∧ names <$> projects (Tracker.create_component repo (lit "NEW") demo).1 !! lit "NEW"
    = Some [repo]
  ∧ new_component (Client:=raced) repo (lit "NEW") (description_of repo) demo
    = ((Tracker.create_component repo (lit "NEW") demo).1, inl (JIRAError 409)).
Proof. by vm_compute. Qed.
End add_runs.


(** ** The allow-list *)

(** [sep.join(pieces)] *)
Fixpoint join (sep : N) (pieces : list str) : str :=
  match pieces with
  | [] => []
  | [p] => p
  | p :: ps => p ++ sep :: join sep ps
  end.

(** [t] is [p] without the white space at its two ends. *)
Definition trimmed (p t : str) : Prop :=
  ∃ l r, p = l ++ t ++ r
         ∧ Forall (λ c, isspace c = true) l ∧ Forall (λ c, isspace c = true) r
         ∧ from_option isspace false (head t) = false
         ∧ from_option isspace false (last t) = false.

(** Two strings that differ in the case of ASCII letters only. *)
Definition same_but_case (s t : str) : Prop :=
  Forall2 (λ c d, ascii_upper c = ascii_upper d) s t.

Lemma split_cons sep s : ∃ p ps, split sep s = p :: ps.
Proof.
  induction s as [|c s (p & ps & IH)]; simpl; [by eauto|].
  destruct (c =? sep); [by eauto|]. rewrite IH. eauto.
Qed.

Lemma join_cons sep p q ps : join sep (p :: q :: ps) = p ++ sep :: join sep (q :: ps).
Proof. reflexivity. Qed.

Lemma join_split sep s : join sep (split sep s) = s.
Proof.
  induction s as [|c s IH]; [done|]. cbn [split].
  destruct (split_cons sep s) as (p & ps & Hs). rewrite Hs in IH |- *.
  destruct (N.eqb_spec c sep) as [->|Hne].
  - by rewrite join_cons, IH.
  - destruct ps as [|q ps].
    + simpl in *. by rewrite IH.
    + rewrite join_cons. rewrite join_cons in IH. by rewrite <- IH.
Qed.

Lemma split_no_sep sep s : Forall (λ p, sep ∉ p) (split sep s).
Proof.
  induction s as [|c s IH]; simpl.
  - repeat constructor. by intros ?%elem_of_nil.
  - destruct (N.eqb_spec c sep) as [->|Hne].
    + constructor; [by intros ?%elem_of_nil|done].
    + destruct (split_cons sep s) as (p & ps & Hs). rewrite Hs in IH |- *.
      apply Forall_cons in IH as [Hp Hps]. constructor; [|done].
      intros [->|?]%elem_of_cons; done.
Qed.

Lemma lstrip_spec s :
  ∃ l, s = l ++ lstrip s ∧ Forall (λ c, isspace c = true) l
       ∧ from_option isspace false (head (lstrip s)) = false.
Proof.
  induction s as [|c s (l & Hs & Hl & Hh)]; simpl; [by exists []|].
  destruct (isspace c) eqn:Hc.
  - exists (c :: l). simpl. rewrite <- Hs. auto.
  - exists []. simpl. auto.
Qed.

Lemma rstrip_spec s :
  ∃ r, s = rstrip s ++ r ∧ Forall (λ c, isspace c = true) r
       ∧ from_option isspace false (last (rstrip s)) = false.
Proof.
  unfold rstrip. destruct (lstrip_spec (reverse s)) as (l & Hs & Hl & Hh).
  exists (reverse l). split; [|split].
  - rewrite <- reverse_app, <- Hs. by rewrite reverse_involutive.
  - by apply Forall_reverse.
  - by rewrite last_reverse.
Qed.

Lemma strip_trimmed p : trimmed p (strip p).
Proof.
  unfold strip. destruct (lstrip_spec p) as (l & Hp & Hl & Hh).
  destruct (rstrip_spec (lstrip p)) as (r & Ht & Hr & Hlast).
  exists l, r. rewrite <- Ht. repeat split; try done.
  destruct (rstrip (lstrip p)) as [|c t] eqn:Et; [done|].
  rewrite Ht in Hh. done.
Qed.

Lemma same_case_cases c d :
  ascii_upper c = ascii_upper d → c = d ∨ (65 ≤ c ≤ 122 ∧ 65 ≤ d ≤ 122).
Proof. unfold ascii_upper. classes. Qed.

Lemma letter_not_space c : 65 ≤ c ≤ 122 → isspace c = false.
Proof.
  intros Hc. unfold isspace, between.
  repeat match goal with
         | |- context [?a <=? ?b] => destruct (N.leb_spec a b); try lia
         | |- context [?a =? ?b] => destruct (N.eqb_spec a b); try lia
         end.
  all: done.
Qed.

Lemma same_case_isspace c d : ascii_upper c = ascii_upper d → isspace c = isspace d.
Proof.
  intros [->|[Hc Hd]]%same_case_cases; [done|].
  by rewrite !letter_not_space.
Qed.

Lemma same_case_comma c d : ascii_upper c = ascii_upper d → (c =? 44) = (d =? 44).
Proof. intros [->|[Hc Hd]]%same_case_cases; [done|]. classes. Qed.

Lemma same_case_upper_char {U : UnicodeData} c d :
  ascii_upper c = ascii_upper d → upper_char c = upper_char d.
Proof.
  intros Heq. destruct (same_case_cases c d Heq) as [->|[Hc Hd]]; [done|].
  unfold upper_char. rewrite Heq.
  replace (is_ascii c) with true by (symmetry; classes).
  replace (is_ascii d) with true by (symmetry; classes). done.
Qed.

Lemma same_case_upper {U : UnicodeData} s t : same_but_case s t → upper s = upper t.
Proof.
  unfold upper. induction 1 as [|c d s t Hcd _ IH]; [done|].
  cbn [mbind list_bind]. rewrite (same_case_upper_char c d Hcd). by f_equal.
Qed.

Lemma same_case_lstrip s t : same_but_case s t → same_but_case (lstrip s) (lstrip t).
Proof.
  induction 1 as [|c d s t Hcd Hst IH]; simpl; [constructor|].
  rewrite (same_case_isspace c d Hcd). destruct (isspace d); [done|by constructor].
Qed.

Lemma same_case_strip s t : same_but_case s t → same_but_case (strip s) (strip t).
Proof.
  intros Hst. unfold strip, rstrip.
  by apply Forall2_reverse, same_case_lstrip, Forall2_reverse, same_case_lstrip.
Qed.

Lemma same_case_split s t :
  same_but_case s t → Forall2 same_but_case (split 44 s) (split 44 t).
Proof.
  induction 1 as [|c d s t Hcd Hst IH]; simpl; [by repeat constructor|].
  rewrite (same_case_comma c d Hcd). destruct (d =? 44).
  - constructor; [constructor|done].
  - destruct IH as [|p q ps qs Hpq Hps]; repeat constructor; done.
Qed.

Section allow_list.
Import Tracker AddJiraComponent.
Context {U : UnicodeData}.

Lemma parse_same_case flt flt' :
  same_but_case flt flt' → parse_project_filter flt' = parse_project_filter flt.
Proof.
  intros Hcase%same_case_split. unfold parse_project_filter.
  induction Hcase as [|p q ps qs Hpq _ IH]; [done|].
  apply same_case_strip in Hpq.
  rewrite !filter_cons. destruct (decide (strip p ≠ [])) as [Hp|Hp].
  - rewrite decide_True; last first.
    { intros Hq. rewrite Hq in Hpq. by apply Forall2_nil_inv_r in Hpq. }
    rewrite !fmap_cons, IH. f_equal. symmetry. by apply same_case_upper.
  - rewrite decide_False; [done|].
    apply dec_stable in Hp. rewrite Hp in Hpq.
    apply Forall2_nil_inv_l in Hpq. intros Hq. by apply Hq.
Qed.

Lemma parse_pieces flt :
  parse_project_filter flt
  = upper <$> filter (λ t, t ≠ []) (strip <$> split 44 flt).
Proof.
  unfold parse_project_filter.
  induction (split 44 flt) as [|p ps IH]; [done|].
  rewrite fmap_cons, !filter_cons.
  repeat case_decide; try done; by rewrite ?fmap_cons, IH.
Qed.

(** C7: the allow-list is cut at the commas, each piece is stripped of
    the white space at its ends, the pieces left empty are dropped and the
    others are put in upper case; the case of the ASCII letters of the
    configured string does not matter; ["ca, Dev ,"] gives [CA] and [DEV];
    and a configured string that leaves no key ends the run, where it can
    print and open its output file, with the skip marker
    [invalid_project_filter] and exit status 0, no call made. *)
Theorem allow_list_parsing (flt : str) :
  (∃ pieces,
      join 44 pieces = flt
      ∧ Forall (λ p, 44 ∉ p) pieces
      ∧ Forall (λ p, trimmed p (strip p)) pieces
      ∧ parse_project_filter flt
        = upper <$> filter (λ t, t ≠ []) (strip <$> pieces))
  ∧ (∀ flt', same_but_case flt flt' →
             parse_project_filter flt' = parse_project_filter flt)
  ∧ parse_project_filter (lit "ca, Dev ,") = [lit "CA"; lit "DEV"]
  ∧ ∀ S (C : Client S) (H : Host) environ url email token key name (s : S),
      configured environ url email token key name flt →
      parse_project_filter flt = [] →
      hospitable environ [circled_slash; flt] →
      script environ s = (World s [] (skipped "invalid_project_filter"), 0%Z).
Proof.
  split; [|split; [|split]].
  - exists (split 44 flt). split; [apply join_split|]. split; [apply split_no_sep|].
    split; [|apply parse_pieces].
    apply Forall_forall. intros p _. apply strip_trimmed.
  - apply parse_same_case.
  - by vm_compute.
  - intros S C H environ url email token key name s Hconf Hnone [Hspeak Hopen].
    revert Hspeak. rewrite !speakable_cons, !andb_true_iff.
    intros (Hsign & Hflt & _).
    unfold script. rewrite (main_configured _ _ _ _ _ _ _ Hconf).
    rewrite bool_decide_eq_true_2 by done.
    unfold Run.bind, print, skip, open_append, Run.bind.
    rewrite !speakable_cons, Hsign, Hflt, Hopen. done.
Qed.
End allow_list.

Lemma allow_list_parsing_witness :
  AddJiraComponent.parse_project_filter (U:=ascii_only) (lit "CA,dev")
  = AddJiraComponent.parse_project_filter (U:=ascii_only) (lit "ca,Dev")
  ∧ AddJiraComponent.script (U:=ascii_only) (C:=AddJiraComponent.reference)
      (H:=runner) (on_runner (environment "ABC-1" "webhooks-test-repo" " , ,")) demo
    = (AddJiraComponent.World demo [] (skipped "invalid_project_filter"), 0%Z).
Proof.
  split.
  - apply (proj1 (proj2 (allow_list_parsing (U:=ascii_only) (lit "ca,Dev")))).
    unfold same_but_case. by repeat constructor.
  - apply (proj2 (proj2 (proj2 (allow_list_parsing (U:=ascii_only) (lit " , ,"))))
             _ _ runner _ (lit "https://example.atlassian.net") (lit "ci@example.com")
             (lit "token") (lit "ABC-1") (lit "webhooks-test-repo")).
    + by apply on_runner_configured, environment_configured.
    + reflexivity.
    + split; reflexivity.
Defined.


(** ** The ensurer on the reference tracker *)

(** The updates of an issue among the calls of a run. *)
Definition updates (evs : list AddJiraComponent.event) : list AddJiraComponent.call :=
  flat_map (λ ev, match AddJiraComponent.what ev with
                  | AddJiraComponent.update_ key cs => [AddJiraComponent.update_ key cs]
                  | _ => []
                  end) evs.

Section reference.
Import Tracker AddJiraComponent.
Context {U : UnicodeData} {H : Host}.

Lemma by_name_name n cs c : by_name n cs = Some c → name c = n.
Proof.
  unfold by_name. intros [_ Hc]%find_some. by apply bool_decide_eq_true in Hc.
Qed.

Lemma by_name_is_Some n cs : n ∈ names cs → is_Some (by_name n cs).
Proof.
  unfold names. intros (c & Hn & Hc)%list_elem_of_fmap.
  destruct (by_name n cs) eqn:Hfind; [done|].
  apply list_elem_of_In in Hc.
  pose proof (find_none _ _ Hfind c Hc) as Hno. simpl in Hno.
  by rewrite bool_decide_eq_true_2 in Hno.
Qed.

Lemma mapM_by_name_names available ns cs :
  mapM (λ n, by_name n available) ns = Some cs → names cs = ns.
Proof.
  intros Hm%mapM_Some. unfold names.
  induction Hm as [|n c ns cs Hn _ IH]; [done|].
  rewrite fmap_cons, IH. f_equal. by eapply by_name_name.
Qed.

Lemma processed_on_reference path url email token key name allowed (j : jira) w :
  ensure path url email token key name allowed (start j) = (w, Returned ()) →
  ∃ i cs i',
    issues j !! key = Some i
    ∧ upper (project_key i) ∈ allowed
    ∧ projects (tracker w) !! project_key i = Some cs ∧ name ∈ names cs
    ∧ issues (tracker w) !! key = Some i'
    ∧ project_key i' = project_key i
    ∧ names (components i')
      = (if bool_decide (name ∈ names (components i)) then names (components i)
         else names (components i) ++ [name])
    ∧ updates (calls w)
      = (if bool_decide (name ∈ names (components i)) then []
         else [update_ key (names (components i) ++ [name])])
    ∧ github_output w = processed
    ∧ speakable ([check_mark; url; key; project_key i; name]
                 ++ (repr_keeps <$> names (components i))) = true
    ∧ open_raises path = None.
Proof.
  run_ensure. unfold get_issue, get_components, Tracker.create_component, edit_issue.
  run_step; [|done]. run_step; [|done].
  destruct (issues j !! key) as [i|] eqn:Hi; simpl; [|done].
  run_step; [|done].
  destruct (bool_decide_reflect (upper (project_key i) ∉ allowed)) as [|Hallowed];
    simpl; [by repeat run_step|]. apply dec_stable in Hallowed.
  run_step; [|done]. run_step; [|done].
  destruct (projects j !! project_key i) as [cs|] eqn:Hcs; simpl; [|done].
  destruct (bool_decide_reflect (name ∉ names cs)) as [Hnew|Hold]; simpl.
  - run_step; [|done].
    rewrite Hcs. rewrite (bool_decide_eq_false_2 (name ∈ names cs)) by done. simpl.
    run_step; [|done]. run_step; [|done].
    set (c := Component (fresh_id (next_id j)) name).
    assert (name ∈ names (cs ++ [c])) as Hc
      by (unfold names; rewrite fmap_app; set_solver).
    destruct (bool_decide_reflect (name ∈ names (components i))) as [Hon|Hoff]; simpl.
    + run_step; [|done]. run_step; [|done]. run_step; [done|].
      intros [= <-]. simpl. exists i, (cs ++ [c]), i.
      rewrite (bool_decide_eq_true_2 _ Hon), lookup_insert_eq.
      heard. repeat split; try done. spoken.
    + destruct (by_name name cs) as [c'|] eqn:Hfind.
      { apply by_name_name in Hfind as Hname. apply find_some in Hfind as [Hin _].
        destruct Hnew. unfold names. apply list_elem_of_fmap. exists c'.
        by rewrite list_elem_of_In. }
      simpl. rewrite lookup_insert_eq. simpl. run_step; [|done]. rewrite Hi. simpl.
      rewrite lookup_insert_eq. simpl.
      destruct (mapM _ _) as [cs'|] eqn:Hm; simpl; [|done].
      run_step; [|done]. run_step; [done|].
      intros [= <-]. simpl. exists i, (cs ++ [c]), (Issue (project_key i) cs').
      rewrite (bool_decide_eq_false_2 _ Hoff), !lookup_insert_eq.
      heard. repeat split; try done; [|spoken]. simpl. by apply mapM_by_name_names in Hm.
  - apply dec_stable in Hold. run_step; [|done]. run_step; [|done].
    destruct (bool_decide_reflect (name ∈ names (components i))) as [Hon|Hoff]; simpl.
    + run_step; [|done]. run_step; [|done]. run_step; [done|].
      intros [= <-]. simpl. exists i, cs, i.
      rewrite (bool_decide_eq_true_2 _ Hon). heard. repeat split; try done. spoken.
    + destruct (by_name name cs) as [c'|] eqn:Hfind;
        [|by destruct (by_name_is_Some name cs Hold) as [? ?]; simplify_eq].
      simpl. run_step; [|done]. rewrite Hi. simpl. rewrite Hcs. simpl.
      destruct (mapM _ _) as [cs'|] eqn:Hm; simpl; [|done].
      run_step; [|done]. run_step; [done|].
      intros [= <-]. simpl. exists i, cs, (Issue (project_key i) cs').
      rewrite (bool_decide_eq_false_2 _ Hoff), !lookup_insert_eq.
      heard. repeat split; try done; [|spoken]. simpl. by apply mapM_by_name_names in Hm.
Qed.

(** Once the component is in the project and on the issue, the ensurer
    connects, reads the issue and lists the components, and that is all. *)
Lemma ensured_is_stable path url email token key name allowed (j : jira) i cs :
  issues j !! key = Some i →
  upper (project_key i) ∈ allowed →
  projects j !! project_key i = Some cs →
  name ∈ names cs →
  name ∈ names (components i) →
  speakable ([check_mark; url; key; project_key i; name]
             ++ (repr_keeps <$> names (components i))) = true →
  open_raises path = None →
  ensure path url email token key name allowed (start j)
  = (World j [Event (JIRA url (email, token)) false; Event (issue_ key) false;
              Event (project_components_ (project_key i)) false]
       processed, Returned ()).
Proof.
  intros Hi Hallowed Hcs Hname Hon Hspeak Hopen.
  revert Hspeak. rewrite speakable_app, !speakable_cons, !andb_true_iff.
  intros ((Hsign & Hurl & Hkey & Hproject & Hn & _) & Hexisting).
  run_ensure. unfold get_issue, get_components. repeat say. rewrite Hi. simpl.
  repeat say.
  rewrite (bool_decide_eq_false_2 (upper (project_key i) ∉ allowed)) by (by intros ?).
  simpl. repeat say. rewrite Hcs. simpl.
  rewrite (bool_decide_eq_false_2 (name ∉ names cs)) by (by intros ?). simpl.
  repeat say. rewrite (bool_decide_eq_true_2 _ Hon). simpl. repeat say.
  by rewrite Hopen.
Qed.

(** A run that exits leaves the reference tracker as it found it. *)
Lemma exit_leaves_tracker path url email token key name allowed (j : jira) w n :
  try_except (ensure path url email token key name allowed) (λ e, sys_exit 1) (start j)
  = (w, Exited n) →
  n = 0%Z → tracker w = j.
Proof.
  run_ensure. unfold get_issue, get_components, Tracker.create_component, edit_issue.
  repeat run_step; intros [= <- <-]; done.
Qed.

(** C5: after a run of the ensurer on the reference tracker that ended
    with exit status 0, a second run with the same environment ends with
    exit status 0 and the same marker, calls neither the creation of a
    component nor the update of an issue, and leaves the tracker, so the
    components attached to the issue, as the first run left it. *)
Theorem ensurer_idempotent environ (j : jira) :
  (script environ j).2 = 0%Z →
  (script environ (tracker (script environ j).1)).2 = 0%Z
  ∧ tracker (script environ (tracker (script environ j).1)).1
    = tracker (script environ j).1
  ∧ existsb (λ ev, mutating (what ev))
      (calls (script environ (tracker (script environ j).1)).1) = false
  ∧ github_output (script environ (tracker (script environ j).1)).1
    = github_output (script environ j).1.
Proof.
  unfold script.
  destruct (main_cases environ)
    as [-> | [-> | [(flt & ->) | (url & email & token & key & name & allowed & ->)]]].
  - unfold missing, Run.bind, print, sys_exit. by repeat destruct (speakable _).
  - unfold Run.bind, print, skip, open_append, write, sys_exit, Run.bind.
    destruct (speakable _); [|done]. by destruct (open_raises _).
  - unfold Run.bind, print, skip, open_append, write, sys_exit, Run.bind.
    repeat (destruct (speakable _); [|done]). by destruct (open_raises _).
  - destruct (after_announce (S:=jira) allowed) as [Ha|Ha]; rewrite !Ha; [|done].
    destruct (try_except _ _ (start j)) as [w o] eqn:Hrun. simpl.
    destruct (guarded_outcomes _ _ _ _ _ _ _ _ _ _ Hrun)
      as [(-> & _) | [(-> & Hout & _ & Hcalls) | (-> & Hout & _)]]; [done| |];
      intros _.
    + pose proof (exit_leaves_tracker _ _ _ _ _ _ _ _ _ _ Hrun eq_refl) as Hj.
      rewrite Hj, Hrun. simpl. by rewrite Hj, Hcalls.
    + unfold try_except in Hrun.
      destruct (ensure _ _ _ _ _ _ _ (start j)) as [w' [[]|e|n]] eqn:Hens; simplify_eq.
      destruct (processed_on_reference _ _ _ _ _ _ _ _ _ Hens)
        as (i & cs & i' & Hi & Hallowed & Hcs & Hname & Hi' & Hpk & Hnames & _ & _
            & Hspeak & Hopen).
      assert (name ∈ names (components i')) as Hon.
      { rewrite Hnames. case_bool_decide; [done|].
        apply elem_of_app. right. apply list_elem_of_here. }
      rewrite <- Hpk in Hallowed, Hcs.
      assert (speakable ([check_mark; url; key; project_key i'; name]
                         ++ (repr_keeps <$> names (components i'))) = true)
        as Hspeak'.
      { rewrite speakable_app, !speakable_cons, !andb_true_iff in Hspeak.
        destruct Hspeak as ((Hsign & Hurl & Hkey & Hproject & Hn & _) & He).
        rewrite Hpk, Hnames. case_bool_decide; [spoken|].
        rewrite fmap_app. spoken. }
      unfold try_except.
      rewrite (ensured_is_stable _ _ _ _ _ _ _ _ _ _ Hi' Hallowed Hcs Hname Hon
                 Hspeak' Hopen).
      simpl. by rewrite Hout.
Qed.

(** What a run sends as updates, on any client, once the issue is read. *)
Lemma updates_of_run {S} {C : Client S} environ url email token key name flt
    (s s1 s2 : S) i :
  configured environ url email token key name flt →
  connect url (email, token) s = (s1, inr ()) →
  fetch_issue key s1 = (s2, inr i) →
  (name ∈ names (components i) → updates (calls (script environ s).1) = [])
  ∧ (name ∉ names (components i) →
     (updates (calls (script environ s).1) = []
      ∨ updates (calls (script environ s).1)
        = [update_ key (names (components i) ++ [name])])
     ∧ ((script environ s).2 = 0%Z →
        github_output (script environ s).1 = processed →
        updates (calls (script environ s).1)
        = [update_ key (names (components i) ++ [name])])).
Proof.
  intros Hconf Hconnect Hfetch.
  unfold script. rewrite (main_configured _ _ _ _ _ _ _ Hconf).
  case_bool_decide.
  { unfold Run.bind, print, skip, open_append, write, sys_exit, Run.bind.
    repeat destruct (speakable _); try destruct (open_raises _); simpl.
    all: split; [done|]; intros _; split; [by left|]; by intros ? [=]. }
  destruct (after_announce (S:=S) (parse_project_filter flt)) as [Ha|Ha]; rewrite !Ha.
  2: { simpl. split; [done|]. intros _. split; [by left|]. by intros [=]. }
  run_ensure.
  run_step; [|split; [done|]; intros _; split; [by left|]; by intros [=]].
  rewrite Hconnect. simpl.
  run_step; [|split; [done|]; intros _; split; [by left|]; by intros [=]].
  rewrite Hfetch. simpl.
  split; [intros Hon|intros Hoff].
  - repeat run_step; try done.
  - repeat run_step; try done; auto.
    all: try (split; [auto|]; try done; intros ? [=]).
Qed.

(** C8: when the name is on the issue already the run sends no update;
    otherwise the one update it can send replaces the components of the
    issue by the names it had followed by the new one, and a run that ends
    as processed has sent it.  On the reference tracker the issue then
    carries its former names and the new one: none is lost, and none is
    doubled if none was. *)
Theorem full_replace_attach environ url email token key name flt :
  configured environ url email token key name flt →
  (∀ S (C : Client S) (s s1 s2 : S) i,
      connect url (email, token) s = (s1, inr ()) →
      fetch_issue key s1 = (s2, inr i) →
      (name ∈ names (components i) → updates (calls (script environ s).1) = [])
      ∧ (name ∉ names (components i) →
         (updates (calls (script environ s).1) = []
          ∨ updates (calls (script environ s).1)
            = [update_ key (names (components i) ++ [name])])
         ∧ ((script environ s).2 = 0%Z →
            github_output (script environ s).1 = processed →
            updates (calls (script environ s).1)
            = [update_ key (names (components i) ++ [name])])))
  ∧ (∀ (j : jira) i,
      issues j !! key = Some i →
      (script environ j).2 = 0%Z →
      github_output (script environ j).1 = processed →
      ∃ i', issues (tracker (script environ j).1) !! key = Some i'
            ∧ names (components i')
              = (if bool_decide (name ∈ names (components i))
                 then names (components i)
                 else names (components i) ++ [name])
            ∧ names (components i) `prefix_of` names (components i')
            ∧ name ∈ names (components i')
            ∧ (NoDup (names (components i)) → NoDup (names (components i')))).
Proof.
  intros Hconf. split.
  { intros S C s s1 s2 i. by apply (updates_of_run environ url email token key name flt). }
  intros j i Hi. unfold script. rewrite (main_configured _ _ _ _ _ _ _ Hconf).
  case_bool_decide.
  { unfold Run.bind, print, skip, open_append, write, sys_exit, Run.bind.
    repeat destruct (speakable _); try destruct (open_raises _); by simpl. }
  destruct (after_announce (S:=jira) (parse_project_filter flt)) as [Ha|Ha];
    rewrite !Ha; [|done].
  unfold try_except.
  destruct (ensure _ _ _ _ _ _ _ (start j)) as [w [[]|e|n]] eqn:Hens; simpl;
    [|done|].
  - intros _ _.
    destruct (processed_on_reference _ _ _ _ _ _ _ _ _ Hens)
      as (i0 & cs & i' & Hi0 & _ & _ & _ & Hi' & _ & Hnames & _ & _).
    rewrite Hi in Hi0. injection Hi0 as <-.
    exists i'. split; [done|]. split; [done|]. rewrite Hnames.
    case_bool_decide as Hon; repeat split; try done.
    + by apply prefix_app_r.
    + set_solver.
    + intros Hnd. apply NoDup_app. repeat split; [done| |apply NoDup_singleton].
      intros x Hx ->%list_elem_of_singleton. done.
  - intros -> Hout.
    assert (Hrun : try_except (ensure (output_path environ) url email token key name
                                 (parse_project_filter flt))
                     (λ e, sys_exit 1) (start j) = (w, Exited 0))
      by (unfold try_except; by rewrite Hens).
    destruct (guarded_outcomes _ _ _ _ _ _ _ _ _ _ Hrun)
      as [(? & _) | [(_ & Hout' & _) | (? & _)]]; [done| |done].
    rewrite Hout in Hout'. done.
Qed.
End reference.

Section reference_runs.
Import Tracker AddJiraComponent.
#[local] Existing Instance runner.

(** The component is new to project [NEW] and to the issue [NEW-7]: the
    run creates it, lists the components again and updates the issue. *)
Example first_run :
  what <$> calls (script (U:=ascii_only) (environment "NEW-7" "webhooks-test-repo" "new")
                    demo).1
  = [JIRA (lit "https://example.atlassian.net") (lit "ci@example.com", lit "token");
     issue_ (lit "NEW-7"); project_components_ (lit "NEW");
     create_component_ repo (lit "NEW") (description_of repo);
     project_components_ (lit "NEW"); update_ (lit "NEW-7") [repo]].
Proof. by vm_compute. Qed.

Lemma ensurer_idempotent_witness :
  (script (U:=ascii_only) (environment "NEW-7" "webhooks-test-repo" "new")
     (tracker (script (U:=ascii_only)
                 (environment "NEW-7" "webhooks-test-repo" "new") demo).1)).2 = 0%Z
  ∧ tracker
      (script (U:=ascii_only) (environment "NEW-7" "webhooks-test-repo" "new")
         (tracker (script (U:=ascii_only)
                     (environment "NEW-7" "webhooks-test-repo" "new") demo).1)).1
    = tracker (script (U:=ascii_only)
                 (environment "NEW-7" "webhooks-test-repo" "new") demo).1
  ∧ existsb (λ ev, mutating (what ev))
      (calls
         (script (U:=ascii_only) (environment "NEW-7" "webhooks-test-repo" "new")
            (tracker (script (U:=ascii_only)
                        (environment "NEW-7" "webhooks-test-repo" "new") demo).1)).1)
    = false
  ∧ github_output
      (script (U:=ascii_only) (environment "NEW-7" "webhooks-test-repo" "new")
         (tracker (script (U:=ascii_only)
                     (environment "NEW-7" "webhooks-test-repo" "new") demo).1)).1
    = github_output
        (script (U:=ascii_only) (environment "NEW-7" "webhooks-test-repo" "new") demo).1.
Proof.
  apply (ensurer_idempotent (U:=ascii_only)
           (environment "NEW-7" "webhooks-test-repo" "new") demo).
  by vm_compute.
Defined.

(** On [DOC-1], which carries [docs], the one update names [docs] and
    the component, and the issue then carries both; on [DOC-2], which
    carries the component already, no update is sent. *)
Lemma full_replace_attach_witness :
  updates (calls (script (U:=ascii_only)
                    (environment "DOC-1" "webhooks-test-repo" "doc") staffed).1)
  = [update_ (lit "DOC-1") (names [docs] ++ [lit "webhooks-test-repo"])]
  ∧ updates (calls (script (U:=ascii_only)
                      (environment "DOC-2" "webhooks-test-repo" "doc") staffed).1)
    = []
  ∧ ∃ i', issues (tracker (script (U:=ascii_only)
                             (environment "DOC-1" "webhooks-test-repo" "doc")
                             staffed).1)
            !! lit "DOC-1" = Some i'
          ∧ names (components i')
            = (if bool_decide (lit "webhooks-test-repo" ∈ names [docs])
               then names [docs] else names [docs] ++ [lit "webhooks-test-repo"])
          ∧ names [docs] `prefix_of` names (components i')
          ∧ lit "webhooks-test-repo" ∈ names (components i')
          ∧ (NoDup (names [docs]) → NoDup (names (components i'))).
Proof.
  destruct (full_replace_attach (U:=ascii_only)
              (environment "DOC-1" "webhooks-test-repo" "doc")
              (lit "https://example.atlassian.net") (lit "ci@example.com")
              (lit "token") (lit "DOC-1") (lit "webhooks-test-repo") (lit "doc")
              (environment_configured "DOC-1" "webhooks-test-repo" "doc"
                 ltac:(done) ltac:(done) ltac:(done)))
    as [Hcalls Hissue].
  destruct (full_replace_attach (U:=ascii_only)
              (environment "DOC-2" "webhooks-test-repo" "doc")
              (lit "https://example.atlassian.net") (lit "ci@example.com")
              (lit "token") (lit "DOC-2") (lit "webhooks-test-repo") (lit "doc")
              (environment_configured "DOC-2" "webhooks-test-repo" "doc"
                 ltac:(done) ltac:(done) ltac:(done)))
    as [Hattached _].
  split; [|split].
  - destruct (Hcalls jira reference staffed staffed staffed (Issue (lit "DOC") [docs])
                eq_refl eq_refl) as [_ Hnew].
    apply Hnew; [compute_done|reflexivity|reflexivity].
  - destruct (Hattached jira reference staffed staffed staffed
                (Issue (lit "DOC") [docs; listed]) eq_refl eq_refl) as [Hold _].
    apply Hold. compute_done.
  - apply (Hissue staffed (Issue (lit "DOC") [docs])); reflexivity.
Defined.

(** What the issue [DOC-1] carries after the run. *)
Example replace_keeps_docs :
  names <$> (components <$>
    issues (tracker (script (U:=ascii_only)
                       (environment "DOC-1" "webhooks-test-repo" "doc") staffed).1)
      !! lit "DOC-1")
  = Some [lit "docs"; lit "webhooks-test-repo"].
Proof. by vm_compute. Qed.
End reference_runs.


(** * Further properties of the two scripts *)

(** ** jira_component_hook.py: what [main] sends and prints *)

(** A request that reads, or that adds one component to an issue. *)
Definition reads_or_adds (q : JiraComponentHook.request) : bool :=
  match q with
  | JiraComponentHook.GET_issue_project _
  | JiraComponentHook.GET_project_components _ => true
  | JiraComponentHook.PUT_issue _ (Tracker.Update_components [Tracker.Add _]) => true
  | _ => false
  end.

Section hook_requests.
Import Tracker JiraComponentHook.
Context {U : UnicodeData} {S : Type} {T : Transport S}.
Variable REPO_NAME : str.
Implicit Types (w : world S) (key : str).

(** [c] sends requests of the kind [good] only. *)
Definition sends_kind (good : request → bool) {A} (c : M (world S) A) : Prop :=
  ∀ w, forallb good (sent w) = true → forallb good (sent (c w).1) = true.

Lemma sends_kind_ret good {A} (a : A) : sends_kind good (Run.ret a).
Proof. by intros w. Qed.

Lemma sends_kind_raise good {A} e : sends_kind good (Run.raise (A:=A) e).
Proof. by intros w. Qed.

Lemma sends_kind_print good l : sends_kind good (print l).
Proof. by intros w. Qed.

Lemma sends_kind_requests (good : request → bool) q :
  good q = true → sends_kind good (requests q).
Proof.
  intros Hq w Hw. unfold requests.
  destruct (send q (tracker w)) as [s [e|r]]; simpl;
    rewrite forallb_app, Hw; simpl; by rewrite Hq.
Qed.

Lemma sends_kind_bind good {A B} (c : M (world S) A) (k : A → M (world S) B) :
  sends_kind good c → (∀ a, sends_kind good (k a)) → sends_kind good (Run.bind c k).
Proof.
  intros Hc Hk w Hw. unfold Run.bind. specialize (Hc w Hw).
  destruct (c w) as [w' [a|e|n]]; [|done|done]. by apply Hk.
Qed.

Lemma sends_kind_try good {A} (c : M (world S) A) (h : exception → M (world S) A) :
  sends_kind good c → (∀ e, sends_kind good (h e)) → sends_kind good (try_except c h).
Proof.
  intros Hc Hh w Hw. unfold try_except. specialize (Hc w Hw).
  destruct (c w) as [w' [a|e|n]]; [done| |done]. by apply Hh.
Qed.

Lemma sends_kind_for_each good {A} (xs : list A) (body : A → M (world S) ()) :
  (∀ x, sends_kind good (body x)) → sends_kind good (for_each xs body).
Proof.
  intros Hbody. induction xs as [|x xs IH]; [apply sends_kind_ret|].
  by apply sends_kind_bind.
Qed.

Lemma sends_kind_raise_for_status good r : sends_kind good (raise_for_status r).
Proof.
  unfold raise_for_status.
  destruct (_ && _); [apply sends_kind_raise|apply sends_kind_ret].
Qed.

Lemma ensure_reads_or_adds key : sends_kind reads_or_adds (ensure REPO_NAME key).
Proof.
  apply sends_kind_bind.
  { apply sends_kind_bind; [by apply sends_kind_requests|]. intros r.
    apply sends_kind_bind; [apply sends_kind_raise_for_status|]. intros _.
    destruct (json r); auto using sends_kind_ret, sends_kind_raise. }
  intros project. apply sends_kind_bind.
  { apply sends_kind_bind; [by apply sends_kind_requests|]. intros r.
    apply sends_kind_bind; [apply sends_kind_raise_for_status|]. intros _.
    destruct (json r); auto using sends_kind_ret, sends_kind_raise. }
  intros comps. apply sends_kind_bind.
  { destruct (comps !! REPO_NAME); [apply sends_kind_ret|].
    intros w. by rewrite jira_create_component_raises. }
  intros comp. apply sends_kind_bind.
  { destruct comp; [apply sends_kind_ret|apply sends_kind_raise]. }
  intros component_id. apply sends_kind_bind; [|intros _; apply sends_kind_print].
  apply sends_kind_bind; [by apply sends_kind_requests|]. intros r.
  destruct (bool_decide _); [apply sends_kind_raise_for_status|apply sends_kind_ret].
Qed.

(** X1: whatever the texts and whatever the tracker answers, a run of
    [main] sends nothing but reads and edits that add one component: no
    request creates a component, none sets, removes or replaces the
    components of an issue. *)
Theorem main_only_reads_and_adds (texts : list str) (s : S) :
  forallb reads_or_adds (sent (main REPO_NAME texts (start s)).1) = true.
Proof.
  assert (sends_kind reads_or_adds (main REPO_NAME texts)) as Hmain; [|by apply Hmain].
  unfold main. destruct (extract_issue_keys texts) as [|k ks];
    [apply sends_kind_print|].
  apply sends_kind_for_each. intros key.
  apply sends_kind_try; [apply ensure_reads_or_adds|].
  intros e. destruct e; apply sends_kind_print.
Qed.
End hook_requests.

(** The last component of a listing that bears a name. *)
Definition last_named (n : str) (cs : list Tracker.component) : option Tracker.component :=
  last (filter (λ c, Tracker.name c = n) cs).


Lemma listing_lookup (m : gmap str Tracker.component) cs n :
  foldl (λ out comp, <[Tracker.name comp := comp]> out) m cs !! n
  = match last_named n cs with
    | Some c => Some c
    | None => m !! n
    end.
Proof.
  unfold last_named. revert m. induction cs as [|c cs IH]; intros m; [done|].
  simpl. rewrite IH, filter_cons. case_decide as Hc.
  - destruct (filter _ cs) as [|c' l] eqn:Hl; simpl.
    + by rewrite <- Hc, lookup_insert_eq.
    + by destruct (last (c' :: l)) eqn:Hlast; [|apply last_None in Hlast].
  - destruct (last (filter _ cs)); [done|]. by rewrite lookup_insert_ne.
Qed.

Lemma last_named_is_Some n cs : n ∈ Tracker.names cs → is_Some (last_named n cs).
Proof.
  unfold Tracker.names, last_named. intros (c & Hn & Hc)%list_elem_of_fmap.
  destruct (last _) eqn:Hlast; [done|]. apply last_None in Hlast.
  assert (c ∈ filter (λ c, Tracker.name c = n) cs) as Hin
    by (by apply list_elem_of_filter).
  rewrite Hlast in Hin. by apply elem_of_nil in Hin.
Qed.

Lemma last_named_Some n cs c :
  last_named n cs = Some c → c ∈ cs ∧ Tracker.name c = n.
Proof.
  unfold last_named. intros Hc%last_Some_elem_of.
  apply list_elem_of_filter in Hc. tauto.
Qed.

(** An HTTP status that [raise_for_status] raises on. *)
Definition error_status (status : Z) : bool := ((400 <=? status) && (status <? 600))%Z.

Section hook_turn.
Import Tracker JiraComponentHook.
Context {U : UnicodeData} {S : Type} {T : Transport S}.
Variable REPO_NAME : str.
Implicit Types (w : world S) (key : str).


(** X3: the dictionary [jira_list_components] returns maps a name to the
    last listed component of that name, and holds no other name; an error
    status raises [HTTPError] instead.  One request is sent either way. *)
Theorem list_components_keeps_last project w s r cs :
  send (GET_project_components project) (tracker w) = (s, inr r) →
  json r = Components cs →
  (error_status (status_code r) = true →
   jira_list_components project w
   = (World s (sent w ++ [GET_project_components project]) (stdout w),
      Raised (HTTPError (status_code r))))
  ∧ (error_status (status_code r) = false →
     ∃ comps,
       jira_list_components project w
       = (World s (sent w ++ [GET_project_components project]) (stdout w),
          Returned comps)
       ∧ (∀ n, comps !! n = last_named n cs)
       ∧ (∀ n, is_Some (comps !! n) ↔ n ∈ names cs)).
Proof.
  intros Hsend Hjson.
  unfold jira_list_components, Run.bind, requests, raise_for_status, error_status.
  rewrite Hsend. simpl. split; intros Hstatus; rewrite Hstatus; simpl; [done|].
  rewrite Hjson. eexists. split; [done|].
  assert (∀ n, foldl (λ out comp, <[name comp := comp]> out)
                 (∅ : gmap str component) cs !! n
               = last_named n cs) as Hlookup.
  { intros n. rewrite listing_lookup. by destruct (last_named n cs). }
  split; [done|]. intros n. rewrite Hlookup. split.
  - intros [c [Hc <-]%last_named_Some]. unfold names.
    apply list_elem_of_fmap. eauto.
  - apply last_named_is_Some.
Qed.



End hook_turn.

Section hook_reference.
Import Tracker JiraComponentHook.
Context {U : UnicodeData}.
Variable REPO_NAME : str.


End hook_reference.

Section hook_turn_runs.
Import Tracker JiraComponentHook.

(** A transport that answers every request with the response it holds. *)
Definition replaying : Transport response := λ _ r, (r, inr r).

(** A listing in which the name of the repository comes twice. *)
Definition doubled : list component :=
  [Component (lit "10000") repo; docs; Component (lit "10007") repo].

Example last_of_doubled : last_named repo doubled = Some (Component (lit "10007") repo).
Proof. by vm_compute. Qed.

Lemma list_components_keeps_last_witness :
  jira_list_components (T:=replaying) (lit "ABC")
    (start (Response 503 (Components [])))
  = (World (Response 503 (Components [])) [GET_project_components (lit "ABC")] [],
     Raised (HTTPError 503))
  ∧ ∃ comps,
      jira_list_components (T:=replaying) (lit "ABC")
        (start (Response 200 (Components doubled)))
      = (World (Response 200 (Components doubled))
           [GET_project_components (lit "ABC")] [], Returned comps)
      ∧ (∀ n, comps !! n = last_named n doubled)
      ∧ (∀ n, is_Some (comps !! n) ↔ n ∈ names doubled).
Proof.
  split.
  - apply (proj1 (list_components_keeps_last (T:=replaying) (lit "ABC")
                    (start (Response 503 (Components [])))
                    (Response 503 (Components [])) (Response 503 (Components []))
                    [] eq_refl eq_refl)).
    reflexivity.
  - apply (proj2 (list_components_keeps_last (T:=replaying) (lit "ABC")
                    (start (Response 200 (Components doubled)))
                    (Response 200 (Components doubled))
                    (Response 200 (Components doubled))
                    doubled eq_refl eq_refl)).
    reflexivity.
Defined.



End hook_turn_runs.


(** ** add_jira_component.py: the checks before the first call *)

(** The kind of a call, without its arguments. *)
Inductive step := Connecting | Fetching | Listing | Creating | Updating.

Definition step_of (c : AddJiraComponent.call) : step :=
  match c with
  | AddJiraComponent.JIRA _ _ => Connecting
  | AddJiraComponent.issue_ _ => Fetching
  | AddJiraComponent.project_components_ _ => Listing
  | AddJiraComponent.create_component_ _ _ _ => Creating
  | AddJiraComponent.update_ _ _ => Updating
  end.

(** The variables [main] requires. *)
Definition required : list string :=
  ["JIRA_BASE_URL"; "JIRA_USER_EMAIL"; "JIRA_API_TOKEN"; "ISSUE_KEY";
   "COMPONENT_NAME"]%string.

Section add_checks.
Import Tracker AddJiraComponent.
Context {U : UnicodeData} {S : Type} {C : Client S} {H : Host}.
Implicit Types (environ : gmap string str) (s : S).

Lemma missing_exits environ s :
  (let '(w, o) := missing environ (start s) in (w, exit_status o))
  = (World s [] [], 1%Z).
Proof.
  unfold missing, Run.bind, print, sys_exit, start.
  by repeat destruct (speakable _).
Qed.

(** X7: a required variable that is unset or empty ends the run with exit
    status 1 before anything else: no call on the tracker and nothing
    written, whatever [JIRA_PROJECT] holds. *)
Theorem missing_variable_is_fatal environ s v :
  v ∈ required →
  environ !! v = None ∨ environ !! v = Some ([] : str) →
  script environ s = (World s [] [], 1%Z).
Proof.
  intros Hv Hmissing. unfold script, main.
  destruct (environ !! "JIRA_BASE_URL"%string) as [a|] eqn:Ha;
    [|apply missing_exits].
  destruct (environ !! "JIRA_USER_EMAIL"%string) as [b|] eqn:Hb;
    [|apply missing_exits].
  destruct (environ !! "JIRA_API_TOKEN"%string) as [c|] eqn:Hc;
    [|apply missing_exits].
  destruct (environ !! "ISSUE_KEY"%string) as [d|] eqn:Hd; [|apply missing_exits].
  destruct (environ !! "COMPONENT_NAME"%string) as [e|] eqn:He;
    [|apply missing_exits].
  assert (negb (forallb truthy [a; b; c; d; e]) = true) as ->;
    [|apply missing_exits].
  repeat (apply elem_of_cons in Hv as [->|Hv]); [..|by apply elem_of_nil in Hv].
  all: destruct Hmissing as [Hm|Hm]; try congruence.
  all: first [rewrite Ha in Hm | rewrite Hb in Hm | rewrite Hc in Hm
             | rewrite Hd in Hm | rewrite He in Hm];
    injection Hm as ->; unfold truthy; simpl; by repeat case_match.
Qed.

(** X8: with the required variables set, an allow-list that is unset,
    empty or made of white space ends the run, where it can print the
    sign of the message and open its output file, with exit status 0 and
    the marker [missing_project_filter], before any call on the tracker. *)
Theorem blank_filter_skips environ s :
  Forall (λ v, ∃ x : str, environ !! v = Some x ∧ x ≠ []) required →
  (environ !! "JIRA_PROJECT"%string = None
   ∨ ∃ flt, environ !! "JIRA_PROJECT"%string = Some flt ∧ strip flt = []) →
  hospitable environ [circled_slash] →
  script environ s = (World s [] (skipped "missing_project_filter"), 0%Z).
Proof.
  intros Hreq Hflt [Hspeak Hopen]. unfold required in Hreq.
  repeat (apply Forall_cons in Hreq as [(? & ? & ?) Hreq]).
  assert ((let '(w, o) := (print [circled_slash];;
                           skip (output_path environ) "missing_project_filter")
                            (start s)
           in (w, exit_status o))
          = (World s [] (skipped "missing_project_filter"), 0%Z)) as Hskip.
  { unfold Run.bind, print, skip, open_append, Run.bind. by rewrite Hspeak, Hopen. }
  unfold script, main.
  repeat match goal with Hv : environ !! _ = Some _ |- _ => rewrite Hv; clear Hv end.
  cbn [forallb]. rewrite !truthy_nonempty by done. cbn [andb negb].
  destruct Hflt as [-> | (flt & -> & Hblank)]; [done|].
  rewrite (bool_decide_eq_true_2 _ Hblank). by rewrite orb_true_r.
Qed.

Lemma by_name_Some_names n cs c : by_name n cs = Some c → n ∈ names cs.
Proof.
  intros Hfind. pose proof (by_name_name _ _ _ Hfind) as <-.
  apply find_some in Hfind as [Hin _]. unfold names.
  apply list_elem_of_fmap. exists c. by rewrite list_elem_of_In.
Qed.

Lemma by_name_None_names n cs : by_name n cs = None → n ∉ names cs.
Proof. intros Hnone [c Hc]%by_name_is_Some. congruence. Qed.

(** X9: the calls of a run follow one of two courses and stop at the first
    that raises: connect, fetch, list, create, list, update when the
    component is new to the project, connect, fetch, list, update when it
    is not.  So a run creates at most once, updates at most once and last,
    and does neither before it has listed the components. *)
Theorem calls_follow_protocol environ s :
  (step_of <$> (what <$> calls (script environ s).1)
     `prefix_of` [Connecting; Fetching; Listing; Creating; Listing; Updating]
   ∨ step_of <$> (what <$> calls (script environ s).1)
     `prefix_of` [Connecting; Fetching; Listing; Updating])
  ∧ existsb raised (removelast (calls (script environ s).1)) = false.
Proof.
  unfold script.
  destruct (main_cases environ)
    as [-> | [-> | [(flt & ->) | (url & email & token & key & name & allowed & ->)]]].
  - rewrite missing_exits. split; [left; by eexists|done].
  - unfold Run.bind, print, skip, open_append, write, sys_exit, Run.bind.
    repeat destruct (speakable _); try destruct (open_raises _); simpl.
    all: split; [left; by eexists|done].
  - unfold Run.bind, print, skip, open_append, write, sys_exit, Run.bind.
    repeat destruct (speakable _); try destruct (open_raises _); simpl.
    all: split; [left; by eexists|done].
  - destruct (after_announce (S:=S) allowed) as [Ha|Ha]; rewrite !Ha;
      [|split; [left; by eexists|done]].
    destruct (try_except _ _ (start s)) as [w o] eqn:Hrun. simpl.
    revert Hrun. run_ensure.
    repeat run_step; intros [= <- <-]; simpl.
    all: try (split; [first [left; by eexists | right; by eexists]|done]).
    all: exfalso;
      match goal with
      | Hn : by_name _ _ = Some _ |- _ => apply by_name_Some_names in Hn
      | Hn : by_name _ _ = None |- _ => apply by_name_None_names in Hn
      end; tauto.
Qed.
End add_checks.

Section add_checks_runs.
Import Tracker AddJiraComponent.
#[local] Existing Instance runner.

Lemma missing_variable_is_fatal_witness :
  script (U:=ascii_only) (C:=reference)
    (delete "ISSUE_KEY"%string (environment "ABC-1" "webhooks-test-repo" "abc")) demo
  = (World demo [] [], 1%Z).
Proof.
  apply (missing_variable_is_fatal (U:=ascii_only) _ demo "ISSUE_KEY"%string).
  - compute_done.
  - left. reflexivity.
Defined.

Lemma blank_filter_skips_witness :
  script (U:=ascii_only) (C:=reference)
    (on_runner (environment "ABC-1" "webhooks-test-repo" "   ")) demo
  = (World demo [] (skipped "missing_project_filter"), 0%Z).
Proof.
  apply (blank_filter_skips (U:=ascii_only)).
  - unfold required. repeat constructor; eexists; (split; [reflexivity|done]).
  - right. eexists. split; reflexivity.
  - split; reflexivity.
Defined.

(** The same run with [GITHUB_OUTPUT] set to the empty string, and on a
    standard output in ASCII. *)
Example blank_filter_needs_its_surroundings :
  script (U:=ascii_only) (C:=reference)
    (<["GITHUB_OUTPUT"%string := []]> (environment "ABC-1" "webhooks-test-repo" "   "))
    demo
  = (World demo [] [], 1%Z)
  ∧ script (U:=ascii_only) (C:=reference) (H:=ascii_runner)
      (on_runner (environment "ABC-1" "webhooks-test-repo" "   ")) demo
    = (World demo [] [], 1%Z).
Proof. by vm_compute. Qed.
End add_checks_runs.


(** ** add_jira_component.py: what the calls keep, the script keeps *)

Section add_keeps.
Import Tracker AddJiraComponent.
Context {U : UnicodeData} {S : Type} {C : Client S} {H : Host}.
Variable I : S → Prop.

(** [c] keeps the property [I] of the tracker. *)
Definition keeps {A} (c : M (world S) A) : Prop :=
  ∀ w, I (tracker w) → I (tracker (c w).1).

Lemma keeps_ret {A} (a : A) : keeps (Run.ret a).
Proof. by intros w. Qed.

Lemma keeps_sys_exit {A} n : keeps (Run.sys_exit (A:=A) n).
Proof. by intros w. Qed.

Lemma keeps_write line : keeps (write line).
Proof. by intros w. Qed.

Lemma keeps_bind {A B} (c : M (world S) A) (k : A → M (world S) B) :
  keeps c → (∀ a, keeps (k a)) → keeps (Run.bind c k).
Proof.
  intros Hc Hk w Hw. unfold Run.bind. specialize (Hc w Hw).
  destruct (c w) as [w' [a|e|n]]; [|done|done]. by apply Hk.
Qed.

Lemma keeps_try {A} (c : M (world S) A) (h : exception → M (world S) A) :
  keeps c → (∀ e, keeps (h e)) → keeps (try_except c h).
Proof.
  intros Hc Hh w Hw. unfold try_except. specialize (Hc w Hw).
  destruct (c w) as [w' [a|e|n]]; [done| |done]. by apply Hh.
Qed.

Lemma keeps_invoke {A} what (op : S → S * (exception + A)) :
  (∀ s, I s → I (op s).1) → keeps (invoke what op).
Proof.
  intros Hop w Hw. unfold invoke. specialize (Hop _ Hw).
  by destruct (op (tracker w)) as [s [e|a]].
Qed.

Lemma keeps_print parts : keeps (print parts).
Proof. intros w. unfold print. by destruct (speakable parts). Qed.

Lemma keeps_open path body : keeps body → keeps (open_append path body).
Proof.
  intros Hbody w Hw. unfold open_append. destruct (open_raises path); [done|].
  by apply Hbody.
Qed.

Lemma keeps_skip path reason : keeps (skip path reason).
Proof.
  unfold skip. apply keeps_bind; [|intros _; apply keeps_sys_exit].
  apply keeps_open. apply keeps_bind; [apply keeps_write|intros _; apply keeps_write].
Qed.

Lemma keeps_missing environ : keeps (missing environ).
Proof.
  unfold missing. repeat (apply keeps_bind; [apply keeps_print|intros _]).
  apply keeps_sys_exit.
Qed.

Lemma keeps_announce allowed : keeps (announce allowed).
Proof.
  unfold announce. destruct allowed as [|p [|q l]];
    (apply keeps_bind; [apply keeps_print|intros _; apply keeps_print]).
Qed.

Ltac kept :=
  repeat first
    [ apply keeps_print | apply keeps_ret | apply keeps_write | apply keeps_skip
    | apply keeps_sys_exit
    | apply keeps_bind; [|intros ?] ].

Lemma ensure_keeps path url email token key name allowed :
  (∀ s, I s → I (connect url (email, token) s).1) →
  (∀ s, I s → I (fetch_issue key s).1) →
  (∀ project s, I s → I (project_components project s).1) →
  (∀ project s, I s → I (new_component name project (description_of name) s).1) →
  (∀ ns s, I s → I (update_issue key ns s).1) →
  keeps (ensure path url email token key name allowed).
Proof.
  intros Hconnect Hfetch Hlist Hcreate Hupdate. unfold ensure.
  apply keeps_bind; [apply keeps_print|]. intros _.
  apply keeps_bind; [apply keeps_invoke; auto|]. intros _.
  apply keeps_bind; [apply keeps_print|]. intros _.
  apply keeps_bind; [apply keeps_invoke; auto|]. intros issue.
  apply keeps_bind; [apply keeps_print|]. intros _.
  case_bool_decide; [kept|].
  apply keeps_bind; [apply keeps_print|]. intros _.
  apply keeps_bind; [apply keeps_print|]. intros _.
  apply keeps_bind; [apply keeps_invoke; auto|]. intros listed.
  apply keeps_bind.
  { case_bool_decide; [|apply keeps_print].
    apply keeps_bind; [apply keeps_print|]. intros _.
    apply keeps_bind; [apply keeps_invoke; auto|]. intros ?. apply keeps_print. }
  intros _. apply keeps_bind; [apply keeps_print|]. intros _.
  apply keeps_bind.
  { case_bool_decide; [apply keeps_print|].
    apply keeps_bind.
    { destruct (by_name name listed); [apply keeps_ret|].
      apply keeps_bind; [apply keeps_invoke; auto|]. intros ?. apply keeps_ret. }
    intros _. apply keeps_bind; [apply keeps_print|]. intros _.
    apply keeps_bind; [apply keeps_invoke; auto|]. intros _. apply keeps_print. }
  intros _. apply keeps_bind; [apply keeps_print|]. intros _.
  apply keeps_open. apply keeps_write.
Qed.

(** A property of the tracker that the five calls keep, as the script
    makes them, holds after a run if it held before. *)
Lemma main_keeps environ :
  (∀ url auth s, I s → I (connect url auth s).1) →
  (∀ key s, I s → I (fetch_issue key s).1) →
  (∀ project s, I s → I (project_components project s).1) →
  (∀ name project s,
      environ !! "COMPONENT_NAME"%string = Some name → I s →
      I (new_component name project (description_of name) s).1) →
  (∀ key ns s,
      environ !! "ISSUE_KEY"%string = Some key → I s →
      I (update_issue key ns s).1) →
  keeps (main environ).
Proof.
  intros Hconnect Hfetch Hlist Hcreate Hupdate. unfold main.
  destruct (environ !! "JIRA_BASE_URL"%string) as [url|]; [|apply keeps_missing].
  destruct (environ !! "JIRA_USER_EMAIL"%string) as [email|]; [|apply keeps_missing].
  destruct (environ !! "JIRA_API_TOKEN"%string) as [token|]; [|apply keeps_missing].
  destruct (environ !! "ISSUE_KEY"%string) as [key|] eqn:Hkey; [|apply keeps_missing].
  destruct (environ !! "COMPONENT_NAME"%string) as [name|] eqn:Hname;
    [|apply keeps_missing].
  destruct (negb _); [apply keeps_missing|].
  destruct (environ !! "JIRA_PROJECT"%string) as [flt|]; [|kept].
  destruct (_ || _); [kept|].
  case_bool_decide; [kept|].
  apply keeps_bind; [apply keeps_announce|]. intros _.
  apply keeps_try; [|intros e; apply keeps_sys_exit].
  apply ensure_keeps; auto.
Qed.
End add_keeps.

(** ** add_jira_component.py on the reference tracker *)

(** What a run may change in the tracker [j] for the issue [key]: the
    other issues stay as they are, the issue stays in its project, and
    every project keeps its components, possibly followed by new ones. *)
Definition grown (key : str) (j j' : Tracker.jira) : Prop :=
  (∀ other, other ≠ key → Tracker.issues j' !! other = Tracker.issues j !! other)
  ∧ (Tracker.project_key <$> Tracker.issues j' !! key
     = Tracker.project_key <$> Tracker.issues j !! key)
  ∧ (∀ project,
        match Tracker.projects j !! project, Tracker.projects j' !! project with
        | Some cs, Some cs' => cs `prefix_of` cs'
        | None, None => True
        | _, _ => False
        end).

Section add_reference.
Import Tracker AddJiraComponent.
Context {U : UnicodeData} {H : Host}.

Lemma grown_refl key j : grown key j j.
Proof.
  split; [done|]. split; [done|]. intros project.
  by destruct (projects j !! project).
Qed.

Lemma grown_create key j j' n project :
  grown key j j' → grown key j (Tracker.create_component n project j').1.
Proof.
  intros Hgrown. pose proof Hgrown as (Hothers & Hkey & Hprojects).
  unfold Tracker.create_component.
  destruct (projects j' !! project) as [cs|] eqn:Hcs; [|exact Hgrown].
  case_bool_decide; [exact Hgrown|]. unfold grown. cbn [fst issues projects].
  split; [done|]. split; [done|]. intros p. specialize (Hprojects p).
  destruct (decide (project = p)) as [<-|Hne].
  - rewrite lookup_insert_eq. rewrite Hcs in Hprojects.
    destruct (projects j !! project); [|done].
    etrans; [done|]. by apply prefix_app_r.
  - by rewrite lookup_insert_ne.
Qed.

Lemma grown_edit key j j' e :
  grown key j j' → grown key j (edit_issue key e j').1.
Proof.
  intros Hgrown. pose proof Hgrown as (Hothers & Hkey & Hprojects). unfold edit_issue.
  destruct (issues j' !! key) as [i|] eqn:Hi; [|exact Hgrown].
  destruct (apply_edit _ _ _); [|exact Hgrown]. unfold grown. cbn [fst issues projects].
  split; [|split; [|done]].
  - intros other Hne. rewrite lookup_insert_ne by done. by apply Hothers.
  - by rewrite lookup_insert_eq, <- Hkey.
Qed.

(** X10: whatever its environment and however it ends, a run on the
    reference tracker leaves every other issue as it was and the issue in
    its project, adds no project and drops none, and leaves in every
    project the components it had, in their order, before any new one. *)
Theorem run_only_grows environ (j : jira) key :
  environ !! "ISSUE_KEY"%string = Some key →
  grown key j (tracker (script environ j).1).
Proof.
  intros Hkey. unfold script.
  destruct (main environ (start j)) as [w o] eqn:Hrun. simpl.
  assert (keeps (grown key j) (main environ)) as Hkeeps.
  { apply main_keeps.
    - by intros url auth s Hs.
    - by intros key' s Hs.
    - by intros project s Hs.
    - intros n project s _ Hs. unfold new_component, reference. simpl.
      pose proof (grown_create key j s n project Hs) as Hgrown.
      by destruct (Tracker.create_component n project s).
    - intros key' ns s Hkey' Hs. unfold update_issue, reference. simpl.
      rewrite Hkey in Hkey'. injection Hkey' as <-.
      pose proof (grown_edit key j s (Fields_components ns) Hs) as Hgrown.
      by destruct (edit_issue key (Fields_components ns) s). }
  specialize (Hkeeps (start j) (grown_refl key j)). by rewrite Hrun in Hkeeps.
Qed.

Lemma mapM_by_name_is_Some available ns :
  Forall (λ n, n ∈ names available) ns →
  is_Some (mapM (λ n, by_name n available) ns).
Proof.
  intros Hns. apply mapM_is_Some. eapply Forall_impl; [done|].
  intros n. apply by_name_is_Some.
Qed.

Lemma ensure_returns path url email token key name allowed (j : jira) i cs :
  issues j !! key = Some i →
  upper (project_key i) ∈ allowed →
  projects j !! project_key i = Some cs →
  Forall (λ n, n ∈ names cs) (names (components i)) →
  speakable ([check_mark; url; key; project_key i; name] ++ names (components i))
  = true →
  open_raises path = None →
  ∃ w, ensure path url email token key name allowed (start j) = (w, Returned ()).
Proof.
  intros Hi Hallowed Hcs Hconsistent Hspeak Hopen.
  revert Hspeak. rewrite speakable_app, !speakable_cons, !andb_true_iff.
  intros ((Hsign & Hurl & Hkey & Hproject & Hn & _) & Hexisting).
  run_ensure. unfold get_issue, get_components, Tracker.create_component, edit_issue.
  repeat say. rewrite Hi. simpl. repeat say.
  rewrite (bool_decide_eq_false_2 (upper (project_key i) ∉ allowed)) by (by intros ?).
  simpl. repeat say. rewrite Hcs. simpl.
  destruct (bool_decide_reflect (name ∉ names cs)) as [Hnew|Hold]; simpl.
  - repeat say. rewrite Hcs.
    rewrite (bool_decide_eq_false_2 (name ∈ names cs)) by done. simpl. repeat say.
    destruct (bool_decide_reflect (name ∈ names (components i))); simpl.
    { repeat say. rewrite Hopen. by eauto. }
    destruct (by_name name cs) eqn:Hfind;
      [by apply by_name_Some_names in Hfind|].
    simpl. rewrite lookup_insert_eq. simpl. repeat say. rewrite Hi. simpl.
    rewrite lookup_insert_eq. simpl.
    destruct (mapM_by_name_is_Some
                (cs ++ [Component (fresh_id (next_id j)) name])
                (names (components i) ++ [name])) as [cs' ->].
    { apply Forall_app. split.
      + eapply Forall_impl; [done|]. intros x Hx. unfold names in *.
        rewrite fmap_app. apply elem_of_app. by left.
      + apply Forall_singleton. unfold names. rewrite fmap_app.
        apply elem_of_app. right. apply list_elem_of_here. }
    simpl. repeat say. rewrite Hopen. by eauto.
  - apply dec_stable in Hold. repeat say.
    destruct (bool_decide_reflect (name ∈ names (components i))); simpl.
    { repeat say. rewrite Hopen. by eauto. }
    destruct (by_name name cs) eqn:Hfind;
      [|by apply by_name_None_names in Hfind].
    simpl. repeat say. rewrite Hi. simpl. rewrite Hcs. simpl.
    destruct (mapM_by_name_is_Some cs (names (components i) ++ [name]))
      as [cs' ->].
    { apply Forall_app. split; [done|]. by apply Forall_singleton. }
    simpl. repeat say. rewrite Hopen. by eauto.
Qed.

(** X11: on the reference tracker, for an issue of an allowed project
    whose components are components of the project, a run that can print
    its messages and open its output file ends as processed with exit
    status 0, and then the project has a component of the name and the
    issue carries it. *)
Theorem ensurer_succeeds environ url email token key name flt (j : jira) i cs :
  configured environ url email token key name flt →
  issues j !! key = Some i →
  upper (project_key i) ∈ parse_project_filter flt →
  projects j !! project_key i = Some cs →
  Forall (λ n, n ∈ names cs) (names (components i)) →
  hospitable environ
    ([check_mark; url; key; project_key i; name] ++ parse_project_filter flt
     ++ names (components i)) →
  (script environ j).2 = 0%Z
  ∧ github_output (script environ j).1 = processed
  ∧ ∃ cs' i',
      projects (tracker (script environ j).1) !! project_key i = Some cs'
      ∧ name ∈ names cs'
      ∧ issues (tracker (script environ j).1) !! key = Some i'
      ∧ name ∈ names (components i').
Proof.
  intros Hconf Hi Hallowed Hcs Hconsistent [Hspeak Hopen].
  revert Hspeak. rewrite !speakable_app, !andb_true_iff.
  intros (Hvalues & Hflt & Hexisting).
  unfold script. rewrite (main_configured _ _ _ _ _ _ _ Hconf).
  rewrite bool_decide_eq_false_2
    by (intros Hnil; rewrite Hnil in Hallowed; by apply elem_of_nil in Hallowed).
  rewrite (announce_speakable _ _ _ Hflt).
  unfold try_except.
  destruct (ensure_returns (output_path environ) url email token key name
              (parse_project_filter flt) j i cs Hi Hallowed Hcs Hconsistent)
    as [w Hw]; [by rewrite speakable_app, Hvalues, Hexisting|done|].
  rewrite Hw. simpl.
  destruct (processed_on_reference _ _ _ _ _ _ _ _ _ Hw)
    as (i0 & cs' & i' & Hi0 & _ & Hcs' & Hname & Hi' & _ & Hnames & _ & Hout & _).
  rewrite Hi in Hi0. injection Hi0 as <-.
  split; [done|]. split; [done|]. exists cs', i'. repeat split; try done.
  rewrite Hnames. case_bool_decide; [done|].
  apply elem_of_app. right. apply list_elem_of_here.
Qed.
End add_reference.

Section add_reference_runs.
Import Tracker AddJiraComponent.
#[local] Existing Instance runner.

Lemma run_only_grows_witness :
  grown (lit "NEW-7") demo
    (tracker (script (U:=ascii_only)
                (environment "NEW-7" "webhooks-test-repo" "new") demo).1).
Proof.
  apply (run_only_grows (U:=ascii_only)
           (environment "NEW-7" "webhooks-test-repo" "new") demo (lit "NEW-7")).
  reflexivity.
Defined.

(** The issue [DOC-1] carries [docs], a component of its project. *)
Lemma ensurer_succeeds_witness :
  (script (U:=ascii_only)
     (on_runner (environment "DOC-1" "webhooks-test-repo" "doc")) staffed).2
  = 0%Z
  ∧ github_output
      (script (U:=ascii_only)
         (on_runner (environment "DOC-1" "webhooks-test-repo" "doc")) staffed).1
    = processed
  ∧ ∃ cs' i',
      projects (tracker (script (U:=ascii_only)
                           (on_runner (environment "DOC-1" "webhooks-test-repo" "doc"))
                           staffed).1)
        !! lit "DOC" = Some cs'
      ∧ lit "webhooks-test-repo" ∈ names cs'
      ∧ issues (tracker (script (U:=ascii_only)
                           (on_runner (environment "DOC-1" "webhooks-test-repo" "doc"))
                           staffed).1)
          !! lit "DOC-1" = Some i'
      ∧ lit "webhooks-test-repo" ∈ names (components i').
Proof.
  apply (ensurer_succeeds (U:=ascii_only)
           (on_runner (environment "DOC-1" "webhooks-test-repo" "doc"))
           (lit "https://example.atlassian.net") (lit "ci@example.com") (lit "token")
           (lit "DOC-1") (lit "webhooks-test-repo") (lit "doc")
           staffed (Issue (lit "DOC") [docs]) [docs; listed]).
  - by apply on_runner_configured, environment_configured.
  - reflexivity.
  - compute_done.
  - reflexivity.
  - repeat constructor.
  - split; reflexivity.
Defined.

(** After the update the print of line 144 or the open of line 147 can
    still raise: the issue carries the component and the run ends with
    status 1 and nothing written. *)
Example processed_needs_its_surroundings :
  script (U:=ascii_only)
    (<["GITHUB_OUTPUT"%string := []]>
       (environment "DOC-1" "webhooks-test-repo" "doc")) staffed
  = (World (Jira (projects staffed)
              (<[lit "DOC-1" := Issue (lit "DOC") [docs; listed]]> (issues staffed))
              (next_id staffed))
       [Event (JIRA (lit "https://example.atlassian.net")
                 (lit "ci@example.com", lit "token")) false;
        Event (issue_ (lit "DOC-1")) false;
        Event (project_components_ (lit "DOC")) false;
        Event (update_ (lit "DOC-1") [lit "docs"; repo]) false]
       [], 1%Z).
Proof. by vm_compute. Qed.
End add_reference_runs.


(** * jira_component_hook.py: from the event to the texts (lines 23-84) *)

Module Event.

(** What [json.load] and [r.json()] return.  Of a number the script only
    ever asks whether it is zero; the fields of an object are the items of
    the decoded [dict], whose keys are distinct. *)
#[warnings="-register-all"]
Inductive json :=
| JNull
| JBool (b : bool)
| JNum (nonzero : bool)
| JStr (s : str)
| JArr (items : list json)
| JObj (fields : list (str * json)).

(** How an evaluation fails: the [AttributeError] of a method that the
    value does not have, or another exception. *)
Inductive failure :=
| AttributeError
| Failed (e : exception).

Definition and_then {A B} (x : failure + A) (f : A → failure + B) : failure + B :=
  match x with
  | inl e => inl e
  | inr a => f a
  end.

(** [for x in xs: out.extend(body(x))], stopping at the first failure. *)
Fixpoint gather {A B} (body : A → failure + list B) (xs : list A) : failure + list B :=
  match xs with
  | [] => inr []
  | x :: xs' =>
      and_then (body x) (λ ys, and_then (gather body xs') (λ zs, inr (ys ++ zs)))
  end.

(** The truth value of a decoded value. *)
Definition truth (v : json) : bool :=
  match v with
  | JNull => false
  | JBool b => b
  | JNum nonzero => nonzero
  | JStr s => truthy s
  | JArr items => match items with [] => false | _ => true end
  | JObj fields => match fields with [] => false | _ => true end
  end.

Definition field (key : str) (fields : list (str * json)) : option json :=
  snd <$> find (λ kv, bool_decide (kv.1 = key)) fields.

(** [d.get(key, default)] *)
Definition get (d : json) (key : string) (default : json) : failure + json :=
  match d with
  | JObj fields => inr (from_option id default (field (lit key) fields))
  | _ => inl AttributeError
  end.

(** [for c in v]: the items of a list, the keys of a dict, the characters
    of a string. *)
Definition items_of (v : json) : failure + list json :=
  match v with
  | JArr items => inr items
  | JObj fields => inr ((λ kv, JStr kv.1) <$> fields)
  | JStr s => inr ((λ c, JStr [c]) <$> s)
  | _ => inl (Failed TypeError)
  end.

Fixpoint starts_with (p s : str) : bool :=
  match p, s with
  | [], _ => true
  | _ :: _, [] => false
  | a :: p', b :: s' => (a =? b) && starts_with p' s'
  end.

(** [p in s] for two strings. *)
Fixpoint contains (p s : str) : bool :=
  starts_with p s || match s with [] => false | _ :: s' => contains p s' end.

(** ["message" in c] *)
Definition has_message (c : json) : failure + bool :=
  match c with
  | JObj fields => inr (bool_decide (is_Some (field (lit "message") fields)))
  | JStr s => inr (contains (lit "message") s)
  | JArr items =>
      inr (existsb (λ v, match v with
                         | JStr s => bool_decide (s = lit "message")
                         | _ => false
                         end) items)
  | _ => inl (Failed TypeError)
  end.

(** [c["message"]], for a [c] that has it. *)
Definition message_of (c : json) : failure + json :=
  match c with
  | JObj fields =>
      match field (lit "message") fields with
      | Some v => inr v
      | None => inl (Failed KeyError)
      end
  | _ => inl (Failed TypeError)
  end.

(** The texts of a push, before the message of the last commit. *)
Definition push_texts (payload : json) : failure + list json :=
  and_then (get payload "commits" (JArr [])) (λ commits,
  and_then (items_of commits) (λ cs,
  and_then (gather (λ c, and_then (has_message c) (λ has,
                           if has then and_then (message_of c) (λ m, inr [m])
                           else inr [])) cs) (λ messages,
  and_then (get payload "ref" JNull) (λ ref,
  inr (messages ++ [if truth ref then ref else JStr []]))))).

(** The texts of a pull request, before the messages of its commits. *)
Definition pull_request_texts (payload : json) : failure + list json :=
  and_then (get payload "pull_request" (JObj [])) (λ pr,
  and_then (get pr "title" (JStr [])) (λ title,
  and_then (get pr "body" (JStr [])) (λ body,
  and_then (get pr "head" (JObj [])) (λ head,
  and_then (get head "ref" (JStr [])) (λ ref,
  inr [title; body; ref]))))).

(** The messages of the commits GitHub lists, when it is a list. *)
Definition commit_messages (commits : option json) : failure + list json :=
  match commits with
  | Some (JArr cs) =>
      gather (λ c, and_then (get c "commit" (JObj [])) (λ commit,
                   and_then (get commit "message" JNull) (λ msg,
                   inr (if truth msg then [msg] else [])))) cs
  | _ => inr []
  end.

(** The answer of GitHub: a status, and what [r.json()] gives. *)
Record answer := Answer { status : Z; decoded : exception + json }.

Class GitHub (G : Type) :=
  fetch : str → G → G * (exception + answer).

(** What the run is given: the name of the event, the payload file
    (absent, unreadable or decoded), the message of the last commit when
    [git log] gave it, and the optional variables. *)
Record event := {
  GITHUB_EVENT_NAME : str;
  payload_file : option (exception + json);
  last_commit : option str;
  GITHUB_TOKEN : option str;
  PR_NUMBER : option str;
  OWNER : option str;
  REPO : option str
}.

Definition set (v : option str) : bool := from_option truthy false v.

Section collect.
Context {G : Type} {H : GitHub G}.

(** GitHub and the URLs fetched from it so far. *)
Record github := GitHubWorld { server : G; fetched : list str }.

(** [gh_api(url)] *)
Definition gh_api (ev : event) (url : str) (w : github)
    : github * (failure + option json) :=
  if negb (set (GITHUB_TOKEN ev)) then (w, inr None)
  else
    match fetch url (server w) with
    | (g, inl e) => (GitHubWorld g (fetched w ++ [url]), inl (Failed e))
    | (g, inr r) =>
        (GitHubWorld g (fetched w ++ [url]),
         if (status r =? 200)%Z then
           match decoded r with
           | inl e => inl (Failed e)
           | inr v => inr (Some v)
           end
         else inr None)
    end.

Definition commits_url (ev : event) : str :=
  lit "https://api.github.com/repos/" ++ default [] (OWNER ev) ++ lit "/"
  ++ default [] (REPO ev) ++ lit "/pulls/" ++ default [] (PR_NUMBER ev)
  ++ lit "/commits".

(** Lines 38-42: the payload is [{}] unless the file is there. *)
Definition payload_of (ev : event) : failure + json :=
  match payload_file ev with
  | None => inr (JObj [])
  | Some (inl e) => inl (Failed e)
  | Some (inr v) => inr v
  end.

(** The first part of [extract_issue_keys]: the list [texts]. *)
Definition collect (ev : event) (w : github) : github * (failure + list json) :=
  match payload_of ev with
  | inl e => (w, inl e)
  | inr payload =>
      if bool_decide (GITHUB_EVENT_NAME ev = lit "push") then
        (w, and_then (push_texts payload) (λ texts,
            inr (texts ++ match last_commit ev with
                          | Some msg => [JStr msg]
                          | None => []
                          end)))
      else if bool_decide (GITHUB_EVENT_NAME ev = lit "pull_request") then
        match pull_request_texts payload with
        | inl e => (w, inl e)
        | inr texts =>
            if set (PR_NUMBER ev) && set (OWNER ev) && set (REPO ev)
               && set (GITHUB_TOKEN ev)
            then
              match gh_api ev (commits_url ev) w with
              | (w', inl e) => (w', inl e)
              | (w', inr commits) =>
                  (w', and_then (commit_messages commits) (λ messages,
                       inr (texts ++ messages)))
              end
            else (w, inr texts)
        end
      else (w, inr [])
  end.

(** The texts the scan reads: the falsy ones are skipped, and [findall]
    raises on one that is no string. *)
Definition scanned (texts : list json) : failure + list str :=
  gather (λ t, if truth t then
                 match t with
                 | JStr s => inr [s]
                 | _ => inl (Failed TypeError)
                 end
               else inr []) texts.

Context {U : UnicodeData}.

(** [extract_issue_keys()] *)
Definition extract_issue_keys (ev : event) (w : github)
    : github * (failure + list str) :=
  match collect ev w with
  | (w', inl e) => (w', inl e)
  | (w', inr texts) =>
      (w', and_then (scanned texts) (λ ts, inr (Harvester.extract_issue_keys ts)))
  end.

(** The whole of [main]: an exception of the harvest is not caught and
    ends the process with status 1 before the tracker is asked anything. *)
Definition main {S : Type} {T : JiraComponentHook.Transport S} (REPO_NAME : str)
    (ev : event) (g : G) (s : S) : github * JiraComponentHook.world S * Z :=
  match collect ev (GitHubWorld g []) with
  | (w, inl e) => (w, JiraComponentHook.start s, 1%Z)
  | (w, inr texts) =>
      match scanned texts with
      | inl e => (w, JiraComponentHook.start s, 1%Z)
      | inr ts =>
          let '(t, o) := JiraComponentHook.main REPO_NAME ts (JiraComponentHook.start s) in
          (w, t, exit_status o)
      end
  end.

(** Lines 10-14: the variables the module reads with [os.environ[...]] as
    it is loaded; one that is unset raises [KeyError] there, before [main]
    is called. *)
Definition needed : list string :=
  ["JIRA_BASE_URL"; "JIRA_EMAIL"; "JIRA_API_TOKEN"; "REPO_NAME";
   "GITHUB_EVENT_NAME"]%string.

(** The event of a run: [file_at] tells what opening and decoding the file
    at a path gives, if there is a file; [git_log] is the message of the
    last commit, if [git log] gives it. *)
Definition event_of (environ : gmap string str)
    (file_at : str → option (exception + json)) (git_log : option str)
    (name : str) : event := {|
  GITHUB_EVENT_NAME := name;
  payload_file :=
    match environ !! "GITHUB_EVENT_PATH"%string with
    | Some event_path => if truthy event_path then file_at event_path else None
    | None => None
    end;
  last_commit := git_log;
  GITHUB_TOKEN := environ !! "GITHUB_TOKEN"%string;
  PR_NUMBER := environ !! "PR_NUMBER"%string;
  OWNER := environ !! "OWNER"%string;
  REPO := environ !! "REPO"%string
|}.

(** The script: the module is loaded, then [main] is called. *)
Definition script {S : Type} {T : JiraComponentHook.Transport S}
    (environ : gmap string str) (file_at : str → option (exception + json))
    (git_log : option str) (g : G) (s : S)
    : github * JiraComponentHook.world S * Z :=
  match environ !! "JIRA_BASE_URL"%string, environ !! "JIRA_EMAIL"%string,
        environ !! "JIRA_API_TOKEN"%string, environ !! "REPO_NAME"%string,
        environ !! "GITHUB_EVENT_NAME"%string with
  | Some _, Some _, Some _, Some REPO_NAME, Some name =>
      main REPO_NAME (event_of environ file_at git_log name) g s
  | _, _, _, _, _ => (GitHubWorld g [], JiraComponentHook.start s, 1%Z)
  end.
End collect.

Arguments github : clear implicits.

End Event.


(** * Properties of the harvest from the event *)

Section harvest_sets.
Context {U : UnicodeData}.

Lemma elem_of_extract (texts : list str) k :
  k ∈ extract_issue_keys texts ↔ ∃ t, t ∈ texts ∧ k ∈ findall ISSUE_KEY_RE t.
Proof. unfold extract_issue_keys. by rewrite elem_of_sorted, elem_of_harvest. Qed.

Lemma harvest_same_set (texts texts' : list str) :
  (∀ t, t ∈ texts ↔ t ∈ texts') →
  harvest ISSUE_KEY_RE texts = harvest ISSUE_KEY_RE texts'.
Proof.
  intros Hsame. apply set_eq. intros k. rewrite !elem_of_harvest.
  split; intros (t & Ht & Hk); exists t; split; try done; by apply Hsame.
Qed.

Lemma extract_nothing : extract_issue_keys [] = [].
Proof.
  unfold extract_issue_keys, harvest, sorted. simpl. by rewrite elements_empty.
Qed.

(** X12: the keys of two lists of texts put together are the keys of the
    one and the keys of the other. *)
Theorem keys_of_all_texts (texts texts' : list str) k :
  k ∈ extract_issue_keys (texts ++ texts')
  ↔ k ∈ extract_issue_keys texts ∨ k ∈ extract_issue_keys texts'.
Proof.
  rewrite !elem_of_extract. split.
  - intros (t & [Ht|Ht]%elem_of_app & Hk); [left|right]; by exists t.
  - intros [(t & Ht & Hk)|(t & Ht & Hk)]; exists t; split; try done;
      apply elem_of_app; auto.
Qed.

(** X13: the list of keys depends on which texts there are only: neither
    their order nor a repeated text changes it. *)
Theorem keys_ignore_order_and_repeats (texts texts' : list str) :
  (∀ t, t ∈ texts ↔ t ∈ texts') →
  extract_issue_keys texts = extract_issue_keys texts'.
Proof.
  intros Hsame. unfold extract_issue_keys. by rewrite (harvest_same_set _ _ Hsame).
Qed.
End harvest_sets.

Section harvest_sets_runs.
#[local] Existing Instance ascii_only.

Lemma keys_ignore_order_and_repeats_witness :
  extract_issue_keys [lit "ABC-1 fix"; lit "see XY-22"; lit "ABC-1 fix"]
  = extract_issue_keys [lit "see XY-22"; lit "ABC-1 fix"].
Proof.
  apply keys_ignore_order_and_repeats. intros t.
  rewrite !elem_of_cons, !elem_of_nil. tauto.
Defined.
End harvest_sets_runs.

(** The string a text of the event gives the scan, if any. *)
Definition text_of (v : Event.json) : option str :=
  match v with
  | Event.JStr s => if truthy s then Some s else None
  | _ => None
  end.

Definition is_text (v : Event.json) : Prop := ∃ s, v = Event.JStr s.
Definition is_object (v : Event.json) : Prop := ∃ fields, v = Event.JObj fields.

(** A commit of a push payload with the message [m]. *)
Definition pushed_commit (m : str) (c : Event.json) : Prop :=
  ∃ fields, c = Event.JObj fields
            ∧ Event.field (lit "message") fields = Some (Event.JStr m).

(** A commit in the list GitHub returns, with the message [m]. *)
Definition listed_commit (m : str) (c : Event.json) : Prop :=
  ∃ fields inner,
    c = Event.JObj fields
    ∧ Event.field (lit "commit") fields = Some (Event.JObj inner)
    ∧ Event.field (lit "message") inner = Some (Event.JStr m).

Definition last_commit_text (ev : Event.event) : list str :=
  match Event.last_commit ev with
  | Some msg => [msg]
  | None => []
  end.

Section event.
Import Tracker JiraComponentHook.
Context {U : UnicodeData} {G : Type} {H : Event.GitHub G}.
Context {S : Type} {T : Transport S}.
Variable REPO_NAME : str.
Implicit Types (ev : Event.event) (w : Event.github G) (v : Event.json).

Lemma gather_app {A B} (body : A → Event.failure + list B) xs ys :
  Event.gather body (xs ++ ys)
  = Event.and_then (Event.gather body xs) (λ a,
      Event.and_then (Event.gather body ys) (λ b, inr (a ++ b))).
Proof.
  induction xs as [|x xs IH]; simpl.
  - by destruct (Event.gather body ys).
  - destruct (body x) as [e|a]; simpl; [done|]. rewrite IH.
    destruct (Event.gather body xs) as [e|a']; simpl; [done|].
    destruct (Event.gather body ys) as [e|b]; simpl; [done|].
    by rewrite app_assoc.
Qed.

Lemma hook_main_returns (texts : list str) (t : world S) :
  ∃ t', main REPO_NAME texts t = (t', Returned ()).
Proof.
  unfold main. destruct (extract_issue_keys texts) as [|k ks].
  - by eexists.
  - destruct (process_returns REPO_NAME (k :: ks) t) as (s & more & lines & -> & _).
    by eexists.
Qed.

Lemma main_of_other_event ev g s :
  Event.GITHUB_EVENT_NAME ev ≠ lit "push" →
  Event.GITHUB_EVENT_NAME ev ≠ lit "pull_request" →
  (∀ e, Event.payload_file ev ≠ Some (inl e)) →
  Event.main REPO_NAME ev g s
  = (Event.GitHubWorld g [], World s [] [Nothing_to_do], 0%Z).
Proof.
  intros Hpush Hpull Hfile. unfold Event.main, Event.collect, Event.payload_of.
  rewrite !bool_decide_eq_false_2 by done.
  destruct (Event.payload_file ev) as [[e|v]|]; [by destruct (Hfile e)| |];
    simpl; unfold main; by rewrite extract_nothing.
Qed.
End event.

Section event_script.
Import Tracker JiraComponentHook.
Context {U : UnicodeData} {G : Type} {H : Event.GitHub G}.
Context {S : Type} {T : Transport S}.
Implicit Types (environ : gmap string str) (g : G) (s : S).

Lemma script_loaded environ file_at git_log g s name :
  Forall (λ v, is_Some (environ !! v)) Event.needed →
  environ !! "GITHUB_EVENT_NAME"%string = Some name →
  ∃ REPO_NAME,
    environ !! "REPO_NAME"%string = Some REPO_NAME
    ∧ Event.script environ file_at git_log g s
      = Event.main REPO_NAME (Event.event_of environ file_at git_log name) g s.
Proof.
  intros Hneeded Hname. unfold Event.needed in Hneeded.
  repeat (apply Forall_cons in Hneeded as [[? ?] Hneeded]).
  unfold Event.script. simplify_eq.
  repeat match goal with Hv : environ !! _ = Some _ |- _ => rewrite Hv end.
  by eexists.
Qed.

(** X14: with the variables the module requires set, on an event that is
    neither a push nor a pull request the hook reads no field of the
    payload, asks neither GitHub nor the tracker, prints that there is
    nothing to do and ends with status 0. *)
Theorem other_event_does_nothing environ file_at git_log g s name :
  Forall (λ v, is_Some (environ !! v)) Event.needed →
  environ !! "GITHUB_EVENT_NAME"%string = Some name →
  name ≠ lit "push" →
  name ≠ lit "pull_request" →
  (∀ e, Event.payload_file (Event.event_of environ file_at git_log name)
        ≠ Some (inl e)) →
  Event.script environ file_at git_log g s
  = (Event.GitHubWorld g [], World s [] [Nothing_to_do], 0%Z).
Proof.
  intros Hneeded Hname Hpush Hpull Hfile.
  destruct (script_loaded environ file_at git_log g s name Hneeded Hname)
    as (REPO_NAME & _ & ->).
  by apply main_of_other_event.
Qed.

(** X15: when one of the variables the module requires is unset, or when
    the harvest raises, the hook ends with status 1 and has sent the
    tracker nothing and printed nothing. *)
Theorem hook_fails_before_tracker environ file_at git_log g s :
  ((∃ v, v ∈ Event.needed ∧ environ !! v = None)
   ∨ ∃ name e,
       environ !! "GITHUB_EVENT_NAME"%string = Some name
       ∧ (Event.extract_issue_keys (Event.event_of environ file_at git_log name)
            (Event.GitHubWorld g [])).2 = inl e) →
  ∃ w, Event.script environ file_at git_log g s = (w, start s, 1%Z).
Proof.
  intros [(v & Hv & Hunset)|(name & e & Hname & Hraises)].
  - exists (Event.GitHubWorld g []). unfold Event.script, Event.needed in *.
    repeat (apply elem_of_cons in Hv as [->|Hv]); [..|by apply elem_of_nil in Hv].
    all: rewrite Hunset; by repeat case_match.
  - unfold Event.script.
    destruct (environ !! "JIRA_BASE_URL"%string); [|by eexists].
    destruct (environ !! "JIRA_EMAIL"%string); [|by eexists].
    destruct (environ !! "JIRA_API_TOKEN"%string); [|by eexists].
    destruct (environ !! "REPO_NAME"%string) as [REPO_NAME|]; [|by eexists].
    rewrite Hname. revert Hraises. unfold Event.main, Event.extract_issue_keys.
    destruct (Event.collect _ _) as [w [e'|texts]]; simpl; [by eexists|].
    destruct (Event.scanned texts) as [e'|ts]; simpl; [by eexists|done].
Qed.
End event_script.

Section event_collect.
Import Tracker JiraComponentHook.
Context {U : UnicodeData} {G : Type} {H : Event.GitHub G}.
Context {S : Type} {T : Transport S}.
Variable REPO_NAME : str.
Implicit Types (ev : Event.event) (w : Event.github G) (v : Event.json).

(** X16: GitHub is asked at most once, for the commits of the pull
    request, and only on a pull request for which the number, the owner,
    the repository and the token are all set. *)
Theorem github_asked_at_most_once ev w :
  Event.fetched (Event.collect ev w).1 = Event.fetched w
  ∨ (Event.fetched (Event.collect ev w).1 = Event.fetched w ++ [Event.commits_url ev]
     ∧ Event.GITHUB_EVENT_NAME ev = lit "pull_request"
     ∧ Event.set (Event.PR_NUMBER ev) = true
     ∧ Event.set (Event.OWNER ev) = true
     ∧ Event.set (Event.REPO ev) = true
     ∧ Event.set (Event.GITHUB_TOKEN ev) = true).
Proof.
  unfold Event.collect.
  destruct (Event.payload_of ev) as [e|v]; [by left|].
  all: case_bool_decide as Hpush; [by left|].
  all: case_bool_decide as Hpull; [|by left].
  all: destruct (Event.pull_request_texts _) as [e|texts]; [by left|].
  all: destruct (Event.set (Event.PR_NUMBER ev)); [|by left].
  all: destruct (Event.set (Event.OWNER ev)); [|by left].
  all: destruct (Event.set (Event.REPO ev)); [|by left].
  all: destruct (Event.set (Event.GITHUB_TOKEN ev)) eqn:Htoken; [|by left].
  all: cbn [andb]; unfold Event.gh_api; rewrite Htoken; cbn [negb].
  all: destruct (Event.fetch _ _) as [g' [e|r]]; right; repeat split; try done.
  all: by destruct (Event.status r =? 200)%Z, (Event.decoded r).
Qed.

Lemma scanned_texts (l : list str) :
  Event.scanned (Event.JStr <$> l) = inr (omap text_of (Event.JStr <$> l)).
Proof.
  induction l as [|t l IH]; [done|].
  unfold Event.scanned in *. cbn [fmap list_fmap Event.gather omap list_omap].
  fold (@fmap list _ _ _ Event.JStr l).
  fold (@omap list _ _ _ text_of (Event.JStr <$> l)).
  rewrite IH. by destruct t.
Qed.

Lemma harvest_skips_falsy (pre l : list str) :
  extract_issue_keys (pre ++ omap text_of (Event.JStr <$> l))
  = extract_issue_keys (pre ++ l).
Proof.
  unfold extract_issue_keys, harvest. f_equal. rewrite !foldl_app.
  generalize (foldl (λ keys t,
                if truthy t
                then foldl (λ keys m, keys ∪ {[ m ]}) keys (findall ISSUE_KEY_RE t)
                else keys) (∅ : gset str) pre).
  induction l as [|t l IH]; intros keys; [done|].
  destruct t as [|c t]; simpl; by rewrite IH.
Qed.

Lemma harvest_skips_all_falsy (l : list str) :
  extract_issue_keys (omap text_of (Event.JStr <$> l)) = extract_issue_keys l.
Proof. apply (harvest_skips_falsy [] l). Qed.

Lemma truth_or_empty (ref : str) :
  (if Event.truth (Event.JStr ref) then Event.JStr ref else Event.JStr [])
  = Event.JStr ref.
Proof. by destruct ref. Qed.

(** X17: what the scan reads of the texts: the non-empty strings, in
    their order; a text that is neither falsy nor a string makes it raise
    [TypeError]. *)
Theorem scanned_spec (texts : list Event.json) :
  match Event.scanned texts with
  | inr ts =>
      ts = omap text_of texts
      ∧ Forall (λ t, Event.truth t = true → is_text t) texts
  | inl e =>
      e = Event.Failed TypeError
      ∧ Exists (λ t, Event.truth t = true ∧ ¬ is_text t) texts
  end.
Proof.
  induction texts as [|t texts IH]; [by split|].
  unfold Event.scanned in *. cbn [Event.gather].
  destruct (Event.truth t) eqn:Htruth.
  - destruct t as [ |b|n|s|l|fs];
      try (cbn [Event.and_then]; split; [done|]; apply Exists_cons_hd;
           split; [done|]; by intros [? ?]).
    cbn [Event.and_then].
    destruct (Event.gather _ texts) as [e|ts]; cbn [Event.and_then].
    + destruct IH as [-> IH]. split; [done|]. by apply Exists_cons_tl.
    + destruct IH as [-> IH]. split.
      * simpl in Htruth. simpl. by rewrite Htruth.
      * constructor; [|done]. intros _. by exists s.
  - cbn [Event.and_then].
    destruct (Event.gather _ texts) as [e|ts]; cbn [Event.and_then].
    + destruct IH as [-> IH]. split; [done|]. by apply Exists_cons_tl.
    + destruct IH as [-> IH]. split.
      * destruct t as [ |b|n|s|l|fs]; try done. simpl in Htruth. simpl.
        by rewrite Htruth.
      * constructor; [|done]. by rewrite Htruth.
Qed.

Lemma gather_pushed ms cs :
  Forall2 pushed_commit ms cs →
  Event.gather (λ c, Event.and_then (Event.has_message c) (λ has,
                  if has then Event.and_then (Event.message_of c) (λ m, inr [m])
                  else inr [])) cs
  = inr (Event.JStr <$> ms).
Proof.
  induction 1 as [|m c ms cs (fields & -> & Hm) _ IH]; [done|].
  cbn [Event.gather]. rewrite IH. simpl. by rewrite Hm.
Qed.

Lemma gather_listed ms cs :
  Forall2 listed_commit ms cs →
  Event.commit_messages (Some (Event.JArr cs))
  = inr (Event.JStr <$> omap text_of (Event.JStr <$> ms)).
Proof.
  unfold Event.commit_messages.
  induction 1 as [|m c ms cs (fields & inner & -> & Hc & Hm) _ IH]; [done|].
  cbn [Event.gather]. rewrite IH. simpl. rewrite Hc. simpl. rewrite Hm. simpl.
  by destruct m.
Qed.

(** X18: the keys of a push are those of the messages of its commits, of
    the pushed ref and of the message of the last commit when [git log]
    gave it; GitHub is not asked. *)
Theorem push_keys ev w fields cs ms ref :
  Event.GITHUB_EVENT_NAME ev = lit "push" →
  Event.payload_of ev = inr (Event.JObj fields) →
  Event.field (lit "commits") fields = Some (Event.JArr cs) →
  Forall2 pushed_commit ms cs →
  Event.field (lit "ref") fields = Some (Event.JStr ref) →
  Event.extract_issue_keys ev w
  = (w, inr (extract_issue_keys (ms ++ ref :: last_commit_text ev))).
Proof.
  intros Hpush Hpayload Hcommits Hms Href.
  unfold Event.extract_issue_keys, Event.collect. rewrite Hpayload.
  rewrite bool_decide_eq_true_2 by done.
  unfold Event.push_texts, Event.get. rewrite Hcommits, Href.
  cbn [Event.and_then from_option Datatypes.id Event.items_of].
  rewrite (gather_pushed _ _ Hms). cbn [Event.and_then].
  rewrite truth_or_empty.
  replace (((Event.JStr <$> ms) ++ [Event.JStr ref])
    ++ match Event.last_commit ev with
       | Some msg => [Event.JStr msg]
       | None => []
       end)
    with (Event.JStr <$> (ms ++ ref :: last_commit_text ev)).
  - rewrite scanned_texts. cbn [Event.and_then].
    by rewrite harvest_skips_all_falsy.
  - unfold last_commit_text. rewrite fmap_app, <- app_assoc.
    by destruct (Event.last_commit ev).
Qed.

(** X19: the keys of a pull request are those of its title, its body and
    the ref of its head, and, when GitHub lists its commits, those of
    their messages; GitHub is asked once. *)
Theorem pull_request_keys ev w fields pr title body head ref g' r cs ms :
  Event.GITHUB_EVENT_NAME ev = lit "pull_request" →
  Event.payload_of ev = inr (Event.JObj fields) →
  Event.field (lit "pull_request") fields = Some (Event.JObj pr) →
  Event.field (lit "title") pr = Some (Event.JStr title) →
  Event.field (lit "body") pr = Some (Event.JStr body) →
  Event.field (lit "head") pr = Some (Event.JObj head) →
  Event.field (lit "ref") head = Some (Event.JStr ref) →
  Event.set (Event.PR_NUMBER ev) = true →
  Event.set (Event.OWNER ev) = true →
  Event.set (Event.REPO ev) = true →
  Event.set (Event.GITHUB_TOKEN ev) = true →
  Event.fetch (Event.commits_url ev) (Event.server w) = (g', inr r) →
  Event.status r = 200%Z →
  Event.decoded r = inr (Event.JArr cs) →
  Forall2 listed_commit ms cs →
  Event.extract_issue_keys ev w
  = (Event.GitHubWorld g' (Event.fetched w ++ [Event.commits_url ev]),
     inr (extract_issue_keys ([title; body; ref] ++ ms))).
Proof.
  intros Hpull Hpayload Hpr Htitle Hbody Hhead Href Hnumber Howner Hrepo Htoken
    Hfetch Hstatus Hdecoded Hms.
  assert (lit "pull_request" ≠ lit "push") as Hne by done.
  unfold Event.extract_issue_keys, Event.collect. rewrite Hpayload, Hpull.
  rewrite bool_decide_eq_false_2, bool_decide_eq_true_2 by done.
  unfold Event.pull_request_texts, Event.get. rewrite Hpr. cbn [Event.and_then from_option Datatypes.id].
  rewrite Htitle, Hbody, Hhead. cbn [Event.and_then from_option Datatypes.id].
  rewrite Href. cbn [Event.and_then from_option Datatypes.id].
  rewrite Hnumber, Howner, Hrepo, Htoken. cbn [andb].
  unfold Event.gh_api. rewrite Htoken, Hfetch, Hstatus, Hdecoded. cbn [negb Z.eqb Pos.eqb].
  rewrite (gather_listed _ _ Hms). cbn [Event.and_then].
  change ([Event.JStr title; Event.JStr body; Event.JStr ref]
          ++ (Event.JStr <$> omap text_of (Event.JStr <$> ms)))
    with (Event.JStr <$> ([title; body; ref] ++ omap text_of (Event.JStr <$> ms))).
  rewrite scanned_texts. cbn [Event.and_then].
  by rewrite harvest_skips_all_falsy, harvest_skips_falsy.
Qed.

(** X20: when GitHub answers with another status than 200, or with
    something that is no list, the texts are those of the payload alone
    and nothing is raised. *)
Theorem github_refusal_changes_nothing ev w payload g' r :
  Event.GITHUB_EVENT_NAME ev = lit "pull_request" →
  Event.payload_of ev = inr payload →
  Event.fetch (Event.commits_url ev) (Event.server w) = (g', inr r) →
  (Event.status r ≠ 200%Z
   ∨ ∃ v, Event.decoded r = inr v ∧ ∀ cs, v ≠ Event.JArr cs) →
  (Event.collect ev w).2 = Event.pull_request_texts payload.
Proof.
  intros Hpull Hpayload Hfetch Hr.
  assert (lit "pull_request" ≠ lit "push") as Hne by done.
  unfold Event.collect. rewrite Hpayload, Hpull.
  rewrite bool_decide_eq_false_2, bool_decide_eq_true_2 by done.
  destruct (Event.pull_request_texts payload) as [e|texts]; [done|].
  destruct (_ && _); [|done].
  unfold Event.gh_api. destruct (negb _); simpl; [by rewrite app_nil_r|].
  rewrite Hfetch. destruct Hr as [Hstatus|(v & Hv & Hlist)].
  - apply Z.eqb_neq in Hstatus. rewrite Hstatus. simpl. by rewrite app_nil_r.
  - destruct (Event.status r =? 200)%Z; simpl; [|by rewrite app_nil_r].
    rewrite Hv. destruct v as [ |b|n|s|l|fs]; simpl; try by rewrite app_nil_r.
    by destruct (Hlist l).
Qed.

(** X21: an exception of the request to GitHub, or of decoding its
    answer, is not caught: the hook ends with status 1 and has sent the
    tracker nothing. *)
Theorem github_failure_is_fatal ev g s payload texts g' e :
  Event.GITHUB_EVENT_NAME ev = lit "pull_request" →
  Event.payload_of ev = inr payload →
  Event.pull_request_texts payload = inr texts →
  Event.set (Event.PR_NUMBER ev) = true →
  Event.set (Event.OWNER ev) = true →
  Event.set (Event.REPO ev) = true →
  Event.set (Event.GITHUB_TOKEN ev) = true →
  (Event.fetch (Event.commits_url ev) g = (g', inl e)
   ∨ ∃ r, Event.fetch (Event.commits_url ev) g = (g', inr r)
          ∧ Event.status r = 200%Z ∧ Event.decoded r = inl e) →
  Event.main REPO_NAME ev g s
  = (Event.GitHubWorld g' [Event.commits_url ev], start s, 1%Z).
Proof.
  intros Hpull Hpayload Htexts Hnumber Howner Hrepo Htoken Hfetch.
  assert (lit "pull_request" ≠ lit "push") as Hne by done.
  unfold Event.main, Event.collect. rewrite Hpayload, Hpull.
  rewrite bool_decide_eq_false_2, bool_decide_eq_true_2 by done.
  rewrite Htexts, Hnumber, Howner, Hrepo, Htoken. cbn [andb].
  unfold Event.gh_api. rewrite Htoken. cbn [negb Event.server Event.fetched].
  destruct Hfetch as [->|(r & -> & -> & ->)]; done.
Qed.

(** X22: the messages of the commits GitHub lists can only add keys to
    those of the title, the body and the ref of the head. *)
Theorem commit_messages_only_add ev w payload w' texts ts :
  Event.GITHUB_EVENT_NAME ev = lit "pull_request" →
  Event.payload_of ev = inr payload →
  Event.collect ev w = (w', inr texts) →
  Event.scanned texts = inr ts →
  ∃ base bs,
    Event.pull_request_texts payload = inr base
    ∧ Event.scanned base = inr bs
    ∧ ∀ k, k ∈ extract_issue_keys bs → k ∈ extract_issue_keys ts.
Proof.
  intros Hpull Hpayload Hcollect Hscanned.
  assert (lit "pull_request" ≠ lit "push") as Hne by done.
  assert (∃ base more, Event.pull_request_texts payload = inr base
                       ∧ texts = base ++ more) as (base & more & Hbase & ->).
  { revert Hcollect. unfold Event.collect. rewrite Hpayload, Hpull.
    rewrite bool_decide_eq_false_2, bool_decide_eq_true_2 by done.
    destruct (Event.pull_request_texts payload) as [e|base]; [done|].
    destruct (_ && _).
    - destruct (Event.gh_api _ _ _) as [w'' [e|commits]]; [done|].
      destruct (Event.commit_messages commits) as [e|messages]; [done|].
      simpl. intros [= _ <-]. by exists base, messages.
    - intros [= _ <-]. exists base, []. by rewrite app_nil_r. }
  unfold Event.scanned in Hscanned. rewrite gather_app in Hscanned.
  fold (Event.scanned base) in Hscanned. fold (Event.scanned more) in Hscanned.
  destruct (Event.scanned base) as [e|bs] eqn:Hbs; [done|].
  destruct (Event.scanned more) as [e|ms]; [done|].
  simpl in Hscanned. injection Hscanned as <-.
  exists base, bs. split; [done|]. split; [done|].
  intros k. rewrite !elem_of_extract. intros (t & Ht & Hk).
  exists t. split; [|done]. apply elem_of_app. by left.
Qed.

(** X23: a payload whose [pull_request], or the [head] of it, is there
    but is no object makes the harvest raise [AttributeError]: the hook
    ends with status 1 and has asked neither GitHub nor the tracker. *)
Theorem malformed_pull_request_is_fatal ev g s fields :
  Event.GITHUB_EVENT_NAME ev = lit "pull_request" →
  Event.payload_of ev = inr (Event.JObj fields) →
  ((∃ v, Event.field (lit "pull_request") fields = Some v ∧ ¬ is_object v)
   ∨ ∃ pr v, Event.field (lit "pull_request") fields = Some (Event.JObj pr)
             ∧ Event.field (lit "head") pr = Some v ∧ ¬ is_object v) →
  Event.collect ev (Event.GitHubWorld g [])
  = (Event.GitHubWorld g [], inl Event.AttributeError)
  ∧ Event.main REPO_NAME ev g s = (Event.GitHubWorld g [], start s, 1%Z).
Proof.
  intros Hpull Hpayload Hbad.
  assert (lit "pull_request" ≠ lit "push") as Hne by done.
  assert (Event.pull_request_texts (Event.JObj fields) = inl Event.AttributeError)
    as Htexts.
  { unfold Event.pull_request_texts, Event.get.
    destruct Hbad as [(v & -> & Hv)|(pr & v & -> & Hhead & Hv)];
      cbn [Event.and_then from_option Datatypes.id].
    - destruct v as [ |b|n|s'|l|fs]; try done. destruct Hv. by exists fs.
    - rewrite Hhead. cbn [Event.and_then from_option Datatypes.id].
      destruct v as [ |b|n|s'|l|fs]; try done. destruct Hv. by exists fs. }
  unfold Event.main, Event.collect. rewrite Hpayload, Hpull.
  rewrite bool_decide_eq_false_2, bool_decide_eq_true_2 by done.
  by rewrite Htexts.
Qed.
End event_collect.

(** A GitHub that gives every request the answer it holds. *)
#[local] Instance canned : Event.GitHub (exception + Event.answer) := λ _ g, (g, g).

Definition commits_of_pull : Event.json :=
  Event.JArr
    [Event.JObj [(lit "sha", Event.JStr (lit "1f0c"));
                 (lit "commit",
                  Event.JObj [(lit "message", Event.JStr (lit "ABC-3 tests"))])]].

Definition listing : exception + Event.answer :=
  inr (Event.Answer 200 (inr commits_of_pull)).
Definition forbidden : exception + Event.answer :=
  inr (Event.Answer 403 (inr (Event.JObj [(lit "message", Event.JStr (lit "Forbidden"))]))).
Definition unreachable : exception + Event.answer := inl RequestException.

Definition pushed : Event.event := {|
  Event.GITHUB_EVENT_NAME := lit "push";
  Event.payload_file :=
    Some (inr (Event.JObj
      [(lit "ref", Event.JStr (lit "refs/heads/ABC-1-fix"));
       (lit "commits",
        Event.JArr [Event.JObj [(lit "id", Event.JStr (lit "9a3e"));
                                (lit "message", Event.JStr (lit "NEW-7 start"))]])]));
  Event.last_commit := Some (lit "NEW-7 start");
  Event.GITHUB_TOKEN := None;
  Event.PR_NUMBER := None;
  Event.OWNER := None;
  Event.REPO := None
|}.

Definition opened (payload : Event.json) : Event.event := {|
  Event.GITHUB_EVENT_NAME := lit "pull_request";
  Event.payload_file := Some (inr payload);
  Event.last_commit := None;
  Event.GITHUB_TOKEN := Some (lit "ghs_token");
  Event.PR_NUMBER := Some (lit "5");
  Event.OWNER := Some (lit "KovalMariia");
  Event.REPO := Some repo
|}.

Definition pull : Event.json :=
  Event.JObj
    [(lit "action", Event.JStr (lit "opened"));
     (lit "pull_request",
      Event.JObj [(lit "title", Event.JStr (lit "ABC-1 fix the hook"));
                  (lit "body", Event.JStr (lit "Part of NEW-7."));
                  (lit "head", Event.JObj [(lit "ref", Event.JStr (lit "fix"))])])].

Definition pull_without_head : Event.json :=
  Event.JObj
    [(lit "pull_request",
      Event.JObj [(lit "title", Event.JStr (lit "ABC-1 fix the hook"));
                  (lit "head", Event.JNull)])].

(** The environment of a scheduled run, and the event file of the runner. *)
Definition scheduled : gmap string str :=
  {[ "JIRA_BASE_URL"%string := lit "https://example.atlassian.net";
     "JIRA_EMAIL"%string := lit "ci@example.com";
     "JIRA_API_TOKEN"%string := lit "token";
     "REPO_NAME"%string := repo;
     "GITHUB_EVENT_NAME"%string := lit "schedule";
     "GITHUB_EVENT_PATH"%string := lit "/github/workflow/event.json";
     "GITHUB_TOKEN"%string := lit "ghs_token" ]}.

Definition event_file (path : str) : option (exception + Event.json) :=
  if bool_decide (path = lit "/github/workflow/event.json")
  then Some (inr (Event.JObj [(lit "schedule", Event.JStr (lit "0 4 * * *"))]))
  else None.

Section event_runs.
Import Tracker JiraComponentHook.
#[local] Existing Instance ascii_only.

(** A push that names two issues, the second in a project without the
    component. *)
Example push_of_two :
  let '(w, t, code) := Event.main repo pushed unreachable demo in
  Event.fetched w = []
  ∧ sent t
    = [GET_issue_project (lit "ABC-1"); GET_project_components (lit "ABC");
       PUT_issue (lit "ABC-1") (Update_components [Add (lit "10000")]);
       GET_issue_project (lit "NEW-7"); GET_project_components (lit "NEW")]
  ∧ stdout t
    = [OK (lit "ABC-1") repo; WARN (lit "NEW-7") (NameError "JIRA_COMPONENT_LEAD")]
  ∧ code = 0%Z.
Proof. by vm_compute. Qed.

Lemma other_event_does_nothing_witness :
  Event.script scheduled event_file None listing demo
  = (Event.GitHubWorld listing [], World demo [] [Nothing_to_do], 0%Z).
Proof.
  apply (other_event_does_nothing scheduled event_file None listing demo
           (lit "schedule")); try done.
  unfold Event.needed. by repeat constructor.
Defined.

(** The scheduled run with [JIRA_EMAIL] unset, and the pull request whose
    [head] is null. *)
Lemma hook_fails_before_tracker_witness :
  (∃ w, Event.script (delete "JIRA_EMAIL"%string scheduled) event_file None
          listing demo
        = (w, start demo, 1%Z))
  ∧ ∃ w, Event.script
           (<["GITHUB_EVENT_NAME"%string := lit "pull_request"]> scheduled)
           (λ _, Some (inr pull_without_head)) None listing demo
         = (w, start demo, 1%Z).
Proof.
  split.
  - apply hook_fails_before_tracker. left. exists "JIRA_EMAIL"%string.
    split; [compute_done|reflexivity].
  - apply hook_fails_before_tracker. right.
    exists (lit "pull_request"), Event.AttributeError. split; reflexivity.
Defined.

Lemma push_keys_witness :
  Event.extract_issue_keys pushed (Event.GitHubWorld unreachable [])
  = (Event.GitHubWorld unreachable [],
     inr (extract_issue_keys
            ([lit "NEW-7 start"]
             ++ lit "refs/heads/ABC-1-fix" :: last_commit_text pushed))).
Proof.
  eapply push_keys; try reflexivity.
  repeat constructor. eexists. split; reflexivity.
Defined.

Lemma pull_request_keys_witness :
  Event.extract_issue_keys (opened pull) (Event.GitHubWorld listing [])
  = (Event.GitHubWorld listing [Event.commits_url (opened pull)],
     inr (extract_issue_keys
            ([lit "ABC-1 fix the hook"; lit "Part of NEW-7."; lit "fix"]
             ++ [lit "ABC-3 tests"]))).
Proof.
  eapply (pull_request_keys (opened pull) (Event.GitHubWorld listing []));
    try reflexivity.
  repeat constructor. eexists _, _. repeat split; reflexivity.
Defined.

Lemma github_refusal_changes_nothing_witness :
  (Event.collect (opened pull) (Event.GitHubWorld forbidden [])).2
  = Event.pull_request_texts pull.
Proof.
  eapply github_refusal_changes_nothing; try reflexivity. by left.
Defined.

Lemma github_failure_is_fatal_witness :
  Event.main repo (opened pull) unreachable demo
  = (Event.GitHubWorld unreachable [Event.commits_url (opened pull)],
     start demo, 1%Z).
Proof.
  eapply github_failure_is_fatal; try reflexivity. by left.
Defined.

Lemma commit_messages_only_add_witness :
  ∃ base bs,
    Event.pull_request_texts pull = inr base
    ∧ Event.scanned base = inr bs
    ∧ ∀ k, k ∈ extract_issue_keys bs →
           k ∈ extract_issue_keys [lit "ABC-1 fix the hook"; lit "Part of NEW-7.";
                                   lit "fix"; lit "ABC-3 tests"].
Proof.
  eapply (commit_messages_only_add (opened pull) (Event.GitHubWorld listing []));
    reflexivity.
Defined.

Lemma malformed_pull_request_is_fatal_witness :
  Event.collect (opened pull_without_head) (Event.GitHubWorld listing [])
  = (Event.GitHubWorld listing [], inl Event.AttributeError)
  ∧ Event.main repo (opened pull_without_head) listing demo
    = (Event.GitHubWorld listing [], start demo, 1%Z).
Proof.
  eapply malformed_pull_request_is_fatal; try reflexivity.
  right. eexists _, Event.JNull. repeat split; try reflexivity. by intros [? ?].
Defined.
End event_runs.
